(** * Dark I-V parameter extraction: a shallow embedding of
    [src/src/config.py], [src/src/io_handler.py] ([DataLoader.preprocess]) and
    [src/src/physics.py] ([DarkIVAnalyzer]).

    Modelling conventions.
    - The preprocessing stage is modelled over [Q]: a float64 is a rational, and
      the stage only compares, negates, subtracts and divides the values it reads.
      Rounding is not modelled.
    - The physics stage calls [np.log], [np.exp] and [np.log10], so it is
      modelled over the real numbers [R] of the Standard Library, with a small
      IEEE-like type [num] for the values that can become infinite or
      not-a-number (NaN is pandas' "undefined").
    - A pandas DataFrame is a record of column names and rows of cells; a
      failing call (a raised exception) is an [Err] of the [result] monad. *)

From Stdlib Require Import List String Ascii Bool Arith Lia ZArith.
From Stdlib Require Import QArith Qabs Qround.
From Stdlib Require Import Sorted Permutation.
From Stdlib Require Import Reals Lra Qreals.
Import ListNotations.

Open Scope nat_scope.
Open Scope string_scope.
Open Scope list_scope.

(** ** Errors and the result monad *)

(** The exceptions the modelled code can raise. *)
Inductive error :=
  | ColumnIdentificationError (found : list string)
      (** [ValueError("Could not identify Voltage or Current columns. Found: ...")] *)
  | KeyError (key : string)
      (** [df['V']] when no column is named ['V'] *)
  | NotOneDimensional (key : string)
      (** [pd.to_numeric(df['I'])] when two columns are named ['I']: [df['I']] is a
          DataFrame and [to_numeric] raises [TypeError] *)
  | EmptyArgmin      (** [Series.idxmin] of an empty Series *)
  | EmptyArgmax      (** [Series.idxmax] of an empty Series *)
  | GradientTooSmall (** [np.gradient] of fewer than two samples *)
  | EmptyRegression  (** [linregress] of empty inputs *)
  | IdenticalX.      (** [linregress] when all x values are identical *)

Inductive result (A : Type) :=
  | Ok (a : A)
  | Err (e : error).
Arguments Ok {A} a.
Arguments Err {A} e.

Definition bind {A B} (m : result A) (k : A -> result B) : result B :=
  match m with Ok a => k a | Err e => Err e end.

Notation "x <- m ;; k" := (bind m (fun x => k))
  (at level 61, m at next level, right associativity).

Definition is_ok {A} (m : result A) : bool :=
  match m with Ok _ => true | Err _ => false end.

(** ** Strings: [str.strip], [str.lower], [in] *)

(** A character is read as the code point [nat_of_ascii c] (0 to 255, the
    Latin-1 range of Python's [str]). *)

(** [c.isspace()]: the whitespace code points of Python's [str] below 256
    (tab to carriage return, the separators 0x1C-0x1F, space, NEL and
    no-break space). *)
Definition is_space (c : ascii) : bool :=
  match nat_of_ascii c with
  | 9 | 10 | 11 | 12 | 13 | 28 | 29 | 30 | 31 | 32 | 133 | 160 => true
  | _ => false
  end.

Fixpoint drop_spaces (l : list ascii) : list ascii :=
  match l with
  | c :: l' => if is_space c then drop_spaces l' else l
  | [] => []
  end.

(** [str(c).strip()]: leading and trailing whitespace removed. *)
Definition strip (s : string) : string :=
  string_of_list_ascii
    (rev (drop_spaces (rev (drop_spaces (list_ascii_of_string s))))).

(** [c.lower()] below 256: A-Z and the Latin-1 capitals (0xC0-0xDE except
    the multiplication sign 0xD7) move up by 32; every other character is
    its own lower case. *)
Definition lower_char (c : ascii) : ascii :=
  let n := nat_of_ascii c in
  if (Nat.leb 65 n && Nat.leb n 90) ||
     (Nat.leb 192 n && Nat.leb n 222 && negb (Nat.eqb n 215))
  then ascii_of_nat (n + 32) else c.

(** [s.lower()]. *)
Fixpoint lower (s : string) : string :=
  match s with
  | EmptyString => EmptyString
  | String c s' => String (lower_char c) (lower s')
  end.

(** Python's [sub in s]. *)
Fixpoint contains (sub s : string) : bool :=
  String.prefix sub s ||
  match s with
  | EmptyString => false
  | String _ s' => contains sub s'
  end.

(** ** [src/src/config.py] *)

Definition VOLTAGE_COLUMN_NAMES : list string :=
  ["V"; "Voltage"; "Voltage (V)"; "U"].
Definition CURRENT_COLUMN_NAMES : list string :=
  ["I"; "Current"; "Current (A)"; "J"; "Current Density"].

Definition DEFAULT_AREA : Q := 1.

(** ** Column identification ([DataLoader.preprocess], step 1) *)

(** [any(n.lower() == col.lower() for n in names)] *)
Definition exact_match (names : list string) (col : string) : bool :=
  existsb (fun n => String.eqb (lower n) (lower col)) names.

(** [any(n.lower() in col.lower() for n in names)] *)
Definition sub_match (names : list string) (col : string) : bool :=
  existsb (fun n => contains (lower n) (lower col)) names.

(** Python truthiness of [v_col] ([None] and [''] are false). *)
Definition truthy (o : option string) : bool :=
  match o with Some s => negb (String.eqb s "") | None => false end.

(** One iteration of [for col in df.columns:] for one of the two name lists. *)
Definition match_step (names : list string) (cur : option string) (col : string)
  : option string :=
  if exact_match names col then Some col
  else if sub_match names col && negb (truthy cur) then Some col
  else cur.

Definition scan_step (acc : option string * option string) (col : string)
  : option string * option string :=
  (match_step VOLTAGE_COLUMN_NAMES (fst acc) col,
   match_step CURRENT_COLUMN_NAMES (snd acc) col).

(** The loop, then the fallback of [if not v_col or not i_col:]. *)
Definition identify (cols : list string) : result (string * string) :=
  let '(v, i) := fold_left scan_step cols (None, None) in
  let fallback :=
    if Nat.eqb (List.length cols) 2
    then Ok (nth 0 cols "", nth 1 cols "")
    else Err (ColumnIdentificationError cols) in
  match v, i with
  | Some v', Some i' =>
      if negb (String.eqb v' "") && negb (String.eqb i' "") then Ok (v', i')
      else fallback
  | _, _ => fallback
  end.

(** ** The DataFrame and [DataLoader.preprocess] (steps 2 to 6) *)

(** A raw cell: a number, a missing value, or text that [pd.to_numeric(...,
    errors='coerce')] turns into NaN (numeric text is read as [CNum]). *)
Inductive cell :=
  | CNum (x : Q)
  | CNaN
  | CText (s : string).

Record frame := mk_frame {
  columns : list string;
  rows : list (list cell)
}.

(** [df.rename(columns={v_col: 'V', i_col: 'I'})] on one name; when
    [v_col = i_col] the dict literal keeps the later entry, ['I']. *)
Definition rename (v i name : string) : string :=
  if String.eqb name i then "I" else if String.eqb name v then "V" else name.

Fixpoint indices_of (name : string) (cols : list string) (k : nat) : list nat :=
  match cols with
  | [] => []
  | c :: cs =>
      if String.eqb c name then k :: indices_of name cs (S k)
      else indices_of name cs (S k)
  end.

(** [df[name]] read as a Series: exactly one column must carry the name. *)
Definition column_index (name : string) (cols : list string) : result nat :=
  match indices_of name cols 0 with
  | [k] => Ok k
  | [] => Err (KeyError name)
  | _ => Err (NotOneDimensional name)
  end.

(** [pd.to_numeric(cell, errors='coerce')], NaN as [None]. *)
Definition num_at (r : list cell) (k : nat) : option Q :=
  match nth k r CNaN with CNum x => Some x | _ => None end.

Fixpoint set_nth {A} (k : nat) (x : A) (l : list A) : list A :=
  match l, k with
  | [], _ => []
  | _ :: l', O => x :: l'
  | y :: l', S k' => y :: set_nth k' x l'
  end.

(** A row of the working table: its coerced V and I, and the whole row. *)
Record sample := mk_sample { sV : Q; sI : Q; srow : list cell }.

(** Coercion, then [df.dropna(subset=['V', 'I'])]. *)
Definition coerce_dropna (kV kI : nat) (rs : list (list cell)) : list sample :=
  flat_map (fun r =>
    match num_at r kV, num_at r kI with
    | Some v, Some i => [mk_sample v i r]
    | _, _ => []
    end) rs.

Definition Qltb (a b : Q) : bool := negb (Qle_bool b a).

(** [df.sort_values('V')], modelled as a stable insertion sort; on tables
    with pairwise distinct V every sort gives this order. *)
Fixpoint insert_by_V (x : sample) (l : list sample) : list sample :=
  match l with
  | [] => [x]
  | y :: l' => if Qle_bool (sV x) (sV y) then x :: l else y :: insert_by_V x l'
  end.

Fixpoint sort_by_V (l : list sample) : list sample :=
  match l with
  | [] => []
  | x :: l' => insert_by_V x (sort_by_V l')
  end.

(** [Series.idxmin] / [Series.idxmax] followed by [df.loc[idx]]: the first
    row attaining the minimum (maximum). *)
Definition argmin {A} (f : A -> Q) (l : list A) : option A :=
  match l with
  | [] => None
  | x :: l' => Some (fold_left (fun best y => if Qltb (f y) (f best) then y else best) l' x)
  end.

Definition argmax {A} (f : A -> Q) (l : list A) : option A :=
  match l with
  | [] => None
  | x :: l' => Some (fold_left (fun best y => if Qltb (f best) (f y) then y else best) l' x)
  end.

(** Step 2: zero-offset correction. *)
Definition zero_offset (pts : list sample) : result (list sample) :=
  match argmin (fun p => Qabs (sV p)) pts with
  | None => Err EmptyArgmin
  | Some z =>
      if Qltb (Qabs (sV z)) (1#2)
      then Ok (map (fun p => mk_sample (sV p) (sI p - sI z) (srow p)) pts)
      else Ok pts
  end.

Definition flip_V (p : sample) : sample := mk_sample (- sV p) (sI p) (srow p).
Definition flip_I (p : sample) : sample := mk_sample (sV p) (- sI p) (srow p).

(** Step 3: polarity correction, before the re-sort. *)
Definition polarity (pts : list sample) : result (list sample) :=
  match argmax (fun p => Qabs (sI p)) pts with
  | None => Err EmptyArgmax
  | Some m =>
      let max_v := sV m in
      let max_i := sI m in
      if Qltb max_v 0 && Qltb max_i 0 then Ok (map (fun p => flip_I (flip_V p)) pts)
      else if Qltb max_v 0 && Qltb 0 max_i then Ok (map flip_V pts)
      else if Qltb 0 max_v && Qltb max_i 0 then Ok (map flip_I pts)
      else Ok pts
  end.

(** A row of the returned Curve. *)
Record point := mk_point { pV : Q; pI : Q; pJ : Q; prow : list cell }.

(** Step 4: [df['J'] = df['I'] / area] if [area and area > 0] else [df['I']]. *)
Definition normalize (area : Q) (p : sample) : point :=
  mk_point (sV p) (sI p) (if Qltb 0 area then sI p / area else sI p) (srow p).

(** Column identification, renaming and the numeric pipeline; returns the
    positions of the V and I columns, the renamed columns and the Curve. *)
Definition preprocess_curve (area : Q) (df : frame)
  : result (nat * nat * list string * list point) :=
  let cols := map strip (columns df) in
  vi <- identify cols ;;
  let cols2 := map (rename (fst vi) (snd vi)) cols in
  kV <- column_index "V" cols2 ;;
  kI <- column_index "I" cols2 ;;
  let pts := sort_by_V (coerce_dropna kV kI (rows df)) in
  pts1 <- zero_offset pts ;;
  pts2 <- polarity pts1 ;;
  let pts3 := sort_by_V pts2 in
  Ok (kV, kI, cols2, map (normalize area) pts3).

(** Writing the V, I and J values back into a row; [df['J'] = ...] overwrites
    the column(s) named ['J'] or appends one. *)
Definition write_row (kV kI : nat) (cols2 : list string) (p : point) : list cell :=
  let r := set_nth kI (CNum (pI p)) (set_nth kV (CNum (pV p)) (prow p)) in
  if existsb (String.eqb "J") cols2
  then map (fun '(c, x) => if String.eqb c "J" then CNum (pJ p) else x) (combine cols2 r)
  else r ++ [CNum (pJ p)].

Definition out_columns (cols2 : list string) : list string :=
  if existsb (String.eqb "J") cols2 then cols2 else cols2 ++ ["J"].

(** [DataLoader.preprocess(df, area)]. *)
Definition preprocess (area : Q) (df : frame) : result frame :=
  c <- preprocess_curve area df ;;
  let '(kV, kI, cols2, pts) := c in
  Ok (mk_frame (out_columns cols2) (map (write_row kV kI cols2) pts)).

(** The sign a [polarity] branch gives a column: negated when [b]. *)
Definition sgn (b : bool) (x : Q) : Q := if b then - x else x.

(** The [zero_offset] correction of I: the subtracted current, if any. *)
Definition shift (o : option Q) (x : Q) : Q := match o with Some c => x - c | None => x end.

(** A table of two numeric rows and a row with a text voltage. *)
Definition wframe : frame :=
  mk_frame ["V"; "I"] [[CNum 1; CNum 5]; [CNum (1#4); CNum 2]; [CText "x"; CNum 1]].

(** ** Column identification restated rule by rule *)

(** The last column whose name equals a listed name (case-insensitively). *)
Fixpoint last_exact (names : list string) (cols : list string) : option string :=
  match cols with
  | [] => None
  | c :: cs =>
      match last_exact names cs with
      | Some d => Some d
      | None => if exact_match names c then Some c else None
      end
  end.

(** Exact match first (the last exact match), else the first substring match. *)
Definition choose_column (names cols : list string) : option string :=
  match last_exact names cols with
  | Some c => Some c
  | None => find (sub_match names) cols
  end.

(** The identification rules as an ordered rule list: name rules, then the
    positional fallback for two-column tables, then the error. *)
Definition identify_rules (cols : list string) : result (string * string) :=
  match choose_column VOLTAGE_COLUMN_NAMES cols,
        choose_column CURRENT_COLUMN_NAMES cols with
  | Some v, Some i => Ok (v, i)
  | _, _ =>
      if Nat.eqb (List.length cols) 2
      then Ok (nth 0 cols "", nth 1 cols "")
      else Err (ColumnIdentificationError cols)
  end.

(** ** The physics stage ([src/src/physics.py]) *)

Open Scope R_scope.

(** Physical constants of [src/src/config.py]. *)
Definition k_B : R := 1.380649e-23.
Definition q : R := 1.60217663e-19.
Definition T_STC : R := 298.15.
Definition R_SH_VOLTAGE_RANGE : R * R := (-0.2, 0.2).

Definition Rltb (a b : R) : bool := if Rlt_dec a b then true else false.
Definition Rleb (a b : R) : bool := if Rle_dec a b then true else false.
Definition Reqb (a b : R) : bool := if Req_EM_T a b then true else false.

(** A float64 value: finite, infinite or NaN (pandas' "undefined"). *)
Inductive num :=
  | Fin (x : R)
  | PInf
  | NInf
  | NaN.

Definition isnan (x : num) : bool := match x with NaN => true | _ => false end.
Definition isfinite (x : num) : bool := match x with Fin _ => true | _ => false end.

(** IEEE [<]: false whenever NaN is involved. *)
Definition num_lt (a b : num) : bool :=
  match a, b with
  | Fin x, Fin y => Rltb x y
  | NInf, Fin _ | NInf, PInf | Fin _, PInf => true
  | _, _ => false
  end.

Definition nneg (a : num) : num :=
  match a with Fin x => Fin (- x) | PInf => NInf | NInf => PInf | NaN => NaN end.

Definition nabs (a : num) : num :=
  match a with Fin x => Fin (Rabs x) | PInf | NInf => PInf | NaN => NaN end.

Definition nadd (a b : num) : num :=
  match a, b with
  | Fin x, Fin y => Fin (x + y)
  | Fin _, PInf | PInf, Fin _ | PInf, PInf => PInf
  | Fin _, NInf | NInf, Fin _ | NInf, NInf => NInf
  | _, _ => NaN
  end.

Definition nsub (a b : num) : num := nadd a (nneg b).

(** Multiplication of an infinity by a finite value of the given sign. *)
Definition inf_times (pos : bool) (y : R) : num :=
  if Rltb 0 y then (if pos then PInf else NInf)
  else if Rltb y 0 then (if pos then NInf else PInf)
  else NaN.

Definition nmul (a b : num) : num :=
  match a, b with
  | Fin x, Fin y => Fin (x * y)
  | PInf, Fin y | Fin y, PInf => inf_times true y
  | NInf, Fin y | Fin y, NInf => inf_times false y
  | PInf, PInf | NInf, NInf => PInf
  | PInf, NInf | NInf, PInf => NInf
  | _, _ => NaN
  end.

(** Division; a zero divisor is taken as +0.0. *)
Definition ndiv (a b : num) : num :=
  match a, b with
  | Fin x, Fin y =>
      if Reqb y 0 then
        (if Rltb 0 x then PInf else if Rltb x 0 then NInf else NaN)
      else Fin (x / y)
  | Fin _, PInf | Fin _, NInf => Fin 0
  | PInf, Fin y => if Rltb y 0 then NInf else PInf
  | NInf, Fin y => if Rltb y 0 then PInf else NInf
  | _, _ => NaN
  end.

(** [np.log] and [np.exp]. *)
Definition nln (a : num) : num :=
  match a with
  | Fin x => if Rltb 0 x then Fin (ln x) else if Reqb x 0 then NInf else NaN
  | PInf => PInf
  | _ => NaN
  end.

Definition nexp (a : num) : num :=
  match a with Fin x => Fin (exp x) | PInf => PInf | NInf => Fin 0 | NaN => NaN end.

(** Python's [max(0, x)]: [x] if [x > 0], else [0]. *)
Definition pymax0 (x : num) : num := if num_lt (Fin 0) x then x else Fin 0.

Definition log10 (x : R) : R := ln x / ln 10.

Fixpoint zip_with {A B C} (f : A -> B -> C) (l1 : list A) (l2 : list B) : list C :=
  match l1, l2 with
  | a :: l1', b :: l2' => f a b :: zip_with f l1' l2'
  | _, _ => []
  end.

Fixpoint sum (l : list R) : R :=
  match l with [] => 0 | x :: l' => x + sum l' end.

(** ** NumPy and SciPy routines *)

Fixpoint grad_tail (prev cur : R) (rest : list R) : list R :=
  match rest with
  | [] => [cur - prev]
  | nxt :: rest' => (nxt - prev) / 2 :: grad_tail cur nxt rest'
  end.

(** [np.gradient(f)] (unit spacing, [edge_order=1]): one-sided differences
    at both ends, central differences inside; fewer than two samples raise. *)
Definition gradient (f : list R) : result (list R) :=
  match f with
  | x0 :: x1 :: rest => Ok ((x1 - x0) :: grad_tail x0 x1 rest)
  | _ => Err GradientTooSmall
  end.

(** [scipy.stats.linregress(x, y)]: (slope, intercept, rvalue). *)
Definition linregress (xs ys : list R) : result (R * R * R) :=
  match xs, ys with
  | [], _ | _, [] => Err EmptyRegression
  | x0 :: xs', _ =>
      if Reqb (fold_left Rmax xs' x0) (fold_left Rmin xs' x0) &&
         Nat.ltb 1 (List.length xs)
      then Err IdenticalX
      else
        let nn := INR (List.length xs) in
        let xmean := sum xs / nn in
        let ymean := sum ys / nn in
        let ssxm := sum (map (fun x => (x - xmean) * (x - xmean)) xs) / nn in
        let ssym := sum (map (fun y => (y - ymean) * (y - ymean)) ys) / nn in
        let ssxym := sum (zip_with (fun x y => (x - xmean) * (y - ymean)) xs ys) / nn in
        let r :=
          if Reqb ssxm 0 || Reqb ssym 0 then 0
          else
            let r0 := ssxym / sqrt (ssxm * ssym) in
            if Rltb 1 r0 then 1 else if Rltb r0 (-1) then -1 else r0 in
        let slope := ssxym / ssxm in
        Ok (slope, ymean - slope * xmean, r)
  end.

(** ** [DarkIVAnalyzer] *)

(** A sample of the smoothed curve. *)
Record spt := mk_spt { V : R; J : R; J_smooth : R }.

(** [self.results]. *)
Record params := mk_params {
  Rsh : num; Rs : num; J0 : num; n : num; r_squared : num
}.

Definition init_params : params := mk_params NaN NaN NaN NaN NaN.

Definition set_Rsh (x : num) (p : params) : params :=
  mk_params x (Rs p) (J0 p) (n p) (r_squared p).
Definition set_Rs (x : num) (p : params) : params :=
  mk_params (Rsh p) x (J0 p) (n p) (r_squared p).
Definition set_n_J0 (n' j0 r2 : num) (p : params) : params :=
  mk_params (Rsh p) (Rs p) j0 n' r2.

(** [df[mask_rsh]]: the samples with V in [R_SH_VOLTAGE_RANGE]. *)
Definition rsh_window (df : list spt) : list spt :=
  filter (fun p => Rleb (fst R_SH_VOLTAGE_RANGE) (V p) &&
                   Rleb (V p) (snd R_SH_VOLTAGE_RANGE)) df.

(** Section 1 of [extract_parameters]: shunt resistance. *)
Definition rsh_step (df : list spt) (res : params) : result params :=
  let df_rsh := rsh_window df in
  if Nat.ltb 2 (List.length df_rsh) then
    reg <- linregress (map V df_rsh) (map J df_rsh) ;;
    let '(slope, _, _) := reg in
    if negb (Reqb slope 0) then Ok (set_Rsh (Fin (1 / slope)) res)
    else Ok (set_Rsh (Fin 1e9) res)
  else Ok res.

(** [Series.idxmin] over the [n_local] values kept by [mask_n]: the first
    row of minimal [n_local]. *)
Definition argmin_n (rows : list (spt * num)) : option (spt * num) :=
  match rows with
  | [] => None
  | x :: rows' =>
      Some (fold_left (fun best y => if num_lt (snd y) (snd best) then y else best) rows' x)
  end.

(** [df['V'].idxmax()]: the first row of maximal V. *)
Definition argmax_V (df : list spt) : option spt :=
  match df with
  | [] => None
  | x :: df' => Some (fold_left (fun best y => if Rltb (V best) (V y) then y else best) df' x)
  end.

Definition in_band (nl : num) : bool := num_lt (Fin 0.5) nl && num_lt nl (Fin 5).

(** Section 2 of [extract_parameters]: ideality factor and saturation current. *)
Definition nj0_step (df : list spt) (res : params) : result params :=
  let df_pos := filter (fun p => Rltb 0.1 (V p) && Rltb 0 (J_smooth p)) df in
  if Nat.ltb 5 (List.length df_pos) then
    let lnJ := map (fun p => ln (J_smooth p)) df_pos in
    dV <- gradient (map V df_pos) ;;
    dlnJ <- gradient lnJ ;;
    let n_local := zip_with (fun a b => nmul (Fin (q / (k_B * T_STC))) (ndiv (Fin a) (Fin b)))
                            dV dlnJ in
    let rows := combine df_pos n_local in
    match argmin_n (filter (fun r => in_band (snd r)) rows) with
    | None => Ok res
    | Some (pc, n_best) =>
        let v_center := V pc in
        let fit := filter (fun p => Rltb (v_center - 0.05) (V p) &&
                                    Rltb (V p) (v_center + 0.05)) df_pos in
        if Nat.ltb 2 (List.length fit) then
          reg <- linregress (map V fit) (map (fun p => ln (J_smooth p)) fit) ;;
          let '(slope_ln, intercept_ln, r_sq) := reg in
          let n_fit := ndiv (Fin q) (Fin (slope_ln * k_B * T_STC)) in
          Ok (set_n_J0 n_fit (Fin (exp intercept_ln)) (Fin (r_sq * r_sq)) res)
        else
          let J_point := J_smooth pc in
          let V_point := V pc in
          Ok (set_n_J0 n_best
                (ndiv (Fin J_point)
                   (nexp (ndiv (Fin (q * V_point)) (nmul (nmul n_best (Fin k_B)) (Fin T_STC)))))
                (r_squared res) res)
    end
  else Ok res.

(** Section 3 of [extract_parameters]: series resistance. *)
Definition rs_step (df : list spt) (res : params) : result params :=
  if negb (isnan (n res)) && negb (isnan (J0 res)) then
    match argmax_V df with
    | None => Err EmptyArgmax
    | Some pm =>
        let V_max := V pm in
        let J_max := J_smooth pm in
        if Rltb 0 J_max then
          let term := nadd (ndiv (Fin J_max) (J0 res)) (Fin 1) in
          if num_lt (Fin 0) term then
            let V_ideal := nmul (ndiv (nmul (nmul (n res) (Fin k_B)) (Fin T_STC)) (Fin q))
                                (nln term) in
            let Rs' := ndiv (nsub (Fin V_max) V_ideal) (Fin J_max) in
            Ok (set_Rs (pymax0 Rs') res)
          else Ok res
        else Ok res
    end
  else Ok res.

(** [DarkIVAnalyzer.extract_parameters] on a fresh analyzer. *)
Definition extract_parameters (df : list spt) : result params :=
  r1 <- rsh_step df init_params ;;
  r2 <- nj0_step df r1 ;;
  rs_step df r2.

(** [DarkIVAnalyzer.calculate_differential_resistance]: [None] when the frame
    has no [J_smooth] column (no [R_diff] column is added). *)
Definition calculate_differential_resistance (Vs : list R) (Js : option (list R))
  : result (option (list num)) :=
  match Js with
  | None => Ok None
  | Some js =>
      dV <- gradient Vs ;;
      dJ <- gradient js ;;
      let R_diff := zip_with (fun a b => ndiv (Fin a) (Fin b)) dV dJ in
      let R_diff1 := map (fun x => if isfinite x then x else NaN) R_diff in
      let R_diff2 := map (fun x => if num_lt (nabs x) (Fin 1e10) then x else NaN) R_diff1 in
      Ok (Some R_diff2)
  end.

(** [np.log10(x.abs().replace(0, np.nan))] on one value. *)
Definition logJ_point (x : R) : num :=
  if Reqb (Rabs x) 0 then NaN else Fin (log10 (Rabs x)).

(** The window-length adjustment of [smooth_data]. *)
Definition smooth_window (n_samples window_length : Z) : Z :=
  if Z.geb window_length n_samples
  then (if Z.even n_samples then n_samples - 1 else n_samples)%Z
  else window_length.

Section Smoothing.
(** [scipy.signal.savgol_filter(x, window_length, polyorder)], a SciPy
    routine, is left abstract; [Err] is a raised exception. *)
Variable savgol_filter : list R -> Z -> Z -> result (list R).

(** [DarkIVAnalyzer.smooth_data()] with its defaults (11, 3): the
    [J_smooth] and [logJ] columns. *)
Definition smooth_data (Js : list R) : list R * list num :=
  let w := smooth_window (Z.of_nat (List.length Js)) 11 in
  let js :=
    if Z.ltb w 3 then Js
    else match savgol_filter Js w 3 with Ok s => s | Err _ => Js end in
  (js, map logJ_point js).
End Smoothing.

Close Scope R_scope.

(** The quadrant check of the returned Curve at the sample pandas would
    report as the maximum of |J| ([idxmax], the first one). *)
Definition first_max_J_in_Q1 (pts : list point) : bool :=
  match argmax (fun p => Qabs (pJ p)) pts with
  | Some m => Qltb 0 (pV m) && Qltb 0 (pJ m)
  | None => true
  end.

(** ** [DataLoader.load_data] ([src/src/io_handler.py]) *)

(** [str.rfind(c)]: the last position of [c], or -1. *)
Fixpoint rfind_aux (c : ascii) (l : list ascii) (k : nat) (acc : Z) : Z :=
  match l with
  | [] => acc
  | x :: l' => rfind_aux c l' (S k) (if Ascii.eqb x c then Z.of_nat k else acc)
  end.

Definition rfind (c : ascii) (s : string) : Z :=
  rfind_aux c (list_ascii_of_string s) 0 (-1)%Z.

(** [p[i] == '.'] for the [cnt] positions from [i] on. *)
Fixpoint dots_from (s : string) (i cnt : nat) : bool :=
  match cnt with
  | O => true
  | S c =>
      match String.get i s with
      | Some ch => Ascii.eqb ch "." && dots_from s (S i) c
      | None => false
      end
  end.

(** [os.path.splitext] ([posixpath], [genericpath._splitext]): the
    extension starts at the last dot of the last path component, unless that
    component has only dots before it (a leading-dot name has none). *)
Definition splitext (p : string) : string * string :=
  let sepIndex := rfind "/" p in
  let dotIndex := rfind "." p in
  if Z.ltb sepIndex dotIndex &&
     negb (dots_from p (Z.to_nat (sepIndex + 1)) (Z.to_nat (dotIndex - (sepIndex + 1))))
  then (substring 0 (Z.to_nat dotIndex) p,
        substring (Z.to_nat dotIndex) (String.length p - Z.to_nat dotIndex) p)
  else (p, "").

(** [os.path.basename]. *)
Definition basename (p : string) : string :=
  let i := Z.to_nat (rfind "/" p + 1) in
  substring i (String.length p - i) p.

(** The outcome of [load_data]: a table, or the [IOError] it raises. *)
Inductive load_result :=
  | Loaded (df : frame)
  | LoadIOError.

(** [except Exception as e: raise IOError(...)]. *)
Definition wrap_io (r : result frame) : load_result :=
  match r with Ok df => Loaded df | Err _ => LoadIOError end.

Section Loading.
(** The pandas readers, left abstract: [pd.read_csv(p)], [pd.read_excel(p)],
    [pd.read_csv(p, sep='\t')] and [pd.read_csv(p, sep=r'\s+')]. *)
Variable read_csv : string -> result frame.
Variable read_excel : string -> result frame.
Variable read_csv_tab : string -> result frame.
Variable read_csv_ws : string -> result frame.

(** [DataLoader.load_data(filepath)]. *)
Definition load_data (filepath : string) : load_result :=
  let ext := lower (snd (splitext filepath)) in
  if String.eqb ext ".csv" then wrap_io (read_csv filepath)
  else if existsb (String.eqb ext) [".xlsx"; ".xls"] then wrap_io (read_excel filepath)
  else if existsb (String.eqb ext) [".txt"; ".iv"] then
    wrap_io
      (match read_csv_tab filepath with
       | Ok df =>
           if Nat.ltb (List.length (columns df)) 2 then
             (* the bare [except:] re-runs the whitespace reader if it raised *)
             match read_csv_ws filepath with
             | Ok df' => Ok df'
             | Err _ => read_csv_ws filepath
             end
           else Ok df
       | Err _ => read_csv_ws filepath
       end)
  else LoadIOError.
End Loading.

(** ** The per-file loop of [main()] ([src/main.py]) *)

Open Scope R_scope.

(** The analyzer's table: columns V, J and J_smooth. *)
Definition mk_spts (Vs Js js : list R) : list spt :=
  zip_with (fun v jj => mk_spt v (fst jj) (snd jj)) Vs (combine Js js).

Section MainLoop.
Variable savgol_filter : list R -> Z -> Z -> result (list R).
Variable read_csv : string -> result frame.
Variable read_excel : string -> result frame.
Variable read_csv_tab : string -> result frame.
Variable read_csv_ws : string -> result frame.

(** Steps 1 and 2 of the loop body: [load_data], [preprocess(df,
    area=DEFAULT_AREA)], then [smooth_data], [calculate_differential_resistance]
    and [extract_parameters] on the analyzer; [None] is an exception, which
    the loop's [except] catches.  The 'V' and 'J' columns of the frame
    [preprocess] returns are the [pV] and [pJ] of [preprocess_curve]
    ([write_row]), and [preprocess] fails exactly when [preprocess_curve]
    does. *)
Definition process_file (filepath : string) : option params :=
  match load_data read_csv read_excel read_csv_tab read_csv_ws filepath with
  | LoadIOError => None
  | Loaded df =>
      match preprocess_curve DEFAULT_AREA df with
      | Err _ => None
      | Ok (_, _, _, pts) =>
          let Vs := map (fun p => Q2R (pV p)) pts in
          let Js := map (fun p => Q2R (pJ p)) pts in
          let js := fst (smooth_data savgol_filter Js) in
          match calculate_differential_resistance Vs (Some js) with
          | Err _ => None
          | Ok _ =>
              match extract_parameters (mk_spts Vs Js js) with
              | Err _ => None
              | Ok res => Some res
              end
          end
      end
  end.

(** [results_list] after the loop over [files]: the parameters of each file
    whose steps 1 and 2 succeed, with its [filename]. *)
Definition main_results (files : list string) : list (string * params) :=
  flat_map (fun f => match process_file f with
                     | Some r => [(basename f, r)]
                     | None => []
                     end) files.
End MainLoop.

(** A forward-bias curve J = J_smooth = exp(20 V) at V = 0.2, 0.3, ..., 0.7. *)
Definition dfW : list spt :=
  [mk_spt 0.2 (exp 4) (exp 4); mk_spt 0.3 (exp 6) (exp 6); mk_spt 0.4 (exp 8) (exp 8);
   mk_spt 0.5 (exp 10) (exp 10); mk_spt 0.6 (exp 12) (exp 12); mk_spt 0.7 (exp 14) (exp 14)].

(** Three samples of the line J = J_smooth = V in the Rsh window. *)
Definition df_line : list spt :=
  [mk_spt (-0.1) (-0.1) (-0.1); mk_spt 0 0 0; mk_spt 0.1 0.1 0.1].

Close Scope R_scope.

(** * Theorems *)

(** ** Preprocessing: column identification *)

Lemma exact_match_empty_V : exact_match VOLTAGE_COLUMN_NAMES "" = false.
Proof. reflexivity. Qed.
Lemma sub_match_empty_V : sub_match VOLTAGE_COLUMN_NAMES "" = false.
Proof. reflexivity. Qed.
Lemma exact_match_empty_I : exact_match CURRENT_COLUMN_NAMES "" = false.
Proof. reflexivity. Qed.
Lemma sub_match_empty_I : sub_match CURRENT_COLUMN_NAMES "" = false.
Proof. reflexivity. Qed.

Section Scan.
Variable names : list string.
Hypothesis exact_nonempty : exact_match names "" = false.
Hypothesis sub_nonempty : sub_match names "" = false.

Lemma match_nonempty c : exact_match names c = true \/ sub_match names c = true ->
  c <> "".
Proof. intros [H | H] ->; congruence. Qed.

Lemma scan_fold cols cur :
  (cur = None \/ truthy cur = true) ->
  fold_left (match_step names) cols cur =
  match last_exact names cols with
  | Some c => Some c
  | None => match cur with Some _ => cur | None => find (sub_match names) cols end
  end.
Proof.
  revert cur; induction cols as [| c cs IH]; intros cur Hcur; simpl.
  - destruct cur; reflexivity.
  - unfold match_step at 2.
    destruct (exact_match names c) eqn:He.
    + rewrite IH.
      2:{ right; simpl. apply negb_true_iff, String.eqb_neq, match_nonempty; auto. }
      destruct (last_exact names cs); reflexivity.
    + destruct (sub_match names c) eqn:Hs; simpl.
      * destruct Hcur as [-> | Ht].
        -- simpl. rewrite IH.
           2:{ right; simpl. apply negb_true_iff, String.eqb_neq, match_nonempty; auto. }
           destruct (last_exact names cs); reflexivity.
        -- rewrite Ht; simpl. rewrite IH by auto.
           destruct (last_exact names cs); [reflexivity |].
           destruct cur; [reflexivity | discriminate].
      * rewrite IH by auto.
        destruct (last_exact names cs); [reflexivity |].
        destruct cur; reflexivity.
Qed.

Lemma scan_choose cols :
  fold_left (match_step names) cols None = choose_column names cols.
Proof. rewrite scan_fold by auto. reflexivity. Qed.

Lemma last_exact_match cols c :
  last_exact names cols = Some c -> exact_match names c = true.
Proof.
  induction cols as [| d ds IH]; simpl; [discriminate |].
  destruct (last_exact names ds); [intros [= <-]; auto |].
  destruct (exact_match names d) eqn:E; [intros [= <-]; auto | discriminate].
Qed.

Lemma choose_nonempty cols c : choose_column names cols = Some c -> c <> "".
Proof.
  unfold choose_column. destruct (last_exact names cols) eqn:E.
  - intros [= <-]. apply match_nonempty; left; eapply last_exact_match; eauto.
  - intros Hf. apply find_some in Hf. apply match_nonempty; right; tauto.
Qed.
End Scan.

Lemma fold_scan_step cols a b :
  fold_left scan_step cols (a, b) =
  (fold_left (match_step VOLTAGE_COLUMN_NAMES) cols a,
   fold_left (match_step CURRENT_COLUMN_NAMES) cols b).
Proof.
  revert a b; induction cols as [| c cs IH]; intros a b; simpl; auto.
  unfold scan_step at 2; simpl. apply IH.
Qed.

(** The loop of [preprocess] follows the ordered identification rules. *)
Lemma identify_by_rules cols : identify cols = identify_rules cols.
Proof.
  unfold identify, identify_rules. rewrite fold_scan_step.
  rewrite !scan_choose by reflexivity.
  destruct (choose_column VOLTAGE_COLUMN_NAMES cols) as [v |] eqn:Hv;
  destruct (choose_column CURRENT_COLUMN_NAMES cols) as [i |] eqn:Hi;
    try reflexivity.
  apply choose_nonempty in Hv; [| reflexivity | reflexivity].
  apply choose_nonempty in Hi; [| reflexivity | reflexivity].
  apply String.eqb_neq in Hv, Hi. rewrite Hv, Hi. reflexivity.
Qed.

(** C3 (counterexample): in the two-column table [x | Voltage] the column
    [Voltage] is identified by name as the voltage column, yet the positional
    fallback runs (the current column is unidentified) and turns [Voltage]
    into the current column. *)
Lemma identify_fallback_overrides_name :
  choose_column VOLTAGE_COLUMN_NAMES ["x"; "Voltage"] = Some "Voltage" /\
  identify ["x"; "Voltage"] = Ok ("x", "Voltage").
Proof. split; reflexivity. Qed.

(** C3 (amended): column identification takes as voltage (current) column
    the last column whose name equals a listed name case-insensitively, else
    the first column whose name contains one; when either is unidentified, a
    two-column table gets column 0 = V and column 1 = I (replacing a
    name-identified column), and any other table fails with
    [ColumnIdentificationError] carrying the columns found. *)
Theorem identify_column_rules (cols : list string) :
  identify cols = identify_rules cols.
Proof. apply identify_by_rules. Qed.

(** C10: a table whose V and I columns are identified but which has no row
    with both values numeric makes [preprocess] raise at [idxmin] of the
    zero-offset step. *)
Theorem preprocess_no_numeric_rows :
  identify ["V"; "I"] = Ok ("V", "I") /\
  preprocess DEFAULT_AREA
    (mk_frame ["V"; "I"] [[CText "a"; CNum 1]; [CNum 1; CNaN]; [CNaN; CText "b"]])
  = Err EmptyArgmin.
Proof. split; reflexivity. Qed.

(** ** Preprocessing run twice *)

Lemma indices_of_app name l1 l2 k :
  indices_of name (l1 ++ l2) k =
  indices_of name l1 k ++ indices_of name l2 (k + List.length l1).
Proof.
  revert k; induction l1 as [| c cs IH]; intros k; simpl.
  - rewrite Nat.add_0_r. reflexivity.
  - rewrite IH. replace (S k + List.length cs) with (k + S (List.length cs)) by lia.
    destruct (String.eqb c name); reflexivity.
Qed.

Lemma indices_of_In name l k : In name l -> indices_of name l k <> [].
Proof.
  revert k; induction l as [| c cs IH]; intros k Hin; simpl; [destruct Hin |].
  destruct (String.eqb c name) eqn:E; [discriminate |].
  apply String.eqb_neq in E. destruct Hin as [-> | Hin]; [congruence |]. auto.
Qed.

Lemma column_index_dup name l :
  In name l -> exists e, column_index name (l ++ [name]) = Err e.
Proof.
  intros Hin. unfold column_index. rewrite indices_of_app. simpl.
  rewrite String.eqb_refl.
  destruct (indices_of name l 0) as [| a [| b rest]] eqn:E.
  - exfalso. eapply indices_of_In; eauto.
  - simpl. eauto.
  - simpl. eauto.
Qed.

Lemma column_index_In name l k : column_index name l = Ok k -> In name l.
Proof.
  unfold column_index. intros H.
  assert (Hgen : forall l k0, indices_of name l k0 <> [] -> In name l).
  { induction l0 as [| c cs IH]; intros k0; simpl; [congruence |].
    destruct (String.eqb c name) eqn:E.
    - apply String.eqb_eq in E. subst. auto.
    - intros Hne. right. eapply IH; eauto. }
  apply (Hgen l 0). destruct (indices_of name l 0); congruence.
Qed.

Lemma bind_ok {A B} (m : result A) (k : A -> result B) b :
  bind m k = Ok b -> exists a, m = Ok a /\ k a = Ok b.
Proof. destruct m; simpl; eauto; discriminate. Qed.

Lemma last_exact_app_last names l c :
  exact_match names c = true -> last_exact names (l ++ [c]) = Some c.
Proof.
  intros Hc. induction l as [| d ds IH]; simpl.
  - rewrite Hc. reflexivity.
  - rewrite IH. reflexivity.
Qed.

Lemma last_exact_In names l c :
  In c l -> exact_match names c = true -> exists d, last_exact names l = Some d.
Proof.
  induction l as [| d ds IH]; simpl; [tauto |].
  intros [-> | Hin] Hc.
  - destruct (last_exact names ds); eauto. rewrite Hc. eauto.
  - destruct (IH Hin Hc) as [e He]. rewrite He. eauto.
Qed.

Lemma rename_not_J v i name : name <> "J" -> rename v i name <> "J".
Proof.
  unfold rename. destruct (String.eqb name i); [discriminate |].
  destruct (String.eqb name v); [discriminate | auto].
Qed.

Lemma preprocess_curve_columns area df kV kI cols2 pts :
  preprocess_curve area df = Ok (kV, kI, cols2, pts) ->
  exists vi, identify (map strip (columns df)) = Ok vi /\
    cols2 = map (rename (fst vi) (snd vi)) (map strip (columns df)) /\
    column_index "V" cols2 = Ok kV /\ column_index "I" cols2 = Ok kI.
Proof.
  unfold preprocess_curve. intros H.
  apply bind_ok in H as [vi [Hvi H]].
  apply bind_ok in H as [kV' [HkV H]].
  apply bind_ok in H as [kI' [HkI H]].
  apply bind_ok in H as [pts1 [_ H]].
  apply bind_ok in H as [pts2 [_ H]].
  injection H as <- <- <- _. eauto 6.
Qed.

(** C2 (counterexample): the two-column table [Voltage | Current] with rows
    (-1, -10), (0.1, 2), (-0.1, 0) is preprocessed, but preprocessing the
    result again raises: its ['J'] column is taken as the current column. *)
Lemma preprocess_twice_example :
  is_ok (preprocess 1 (mk_frame ["Voltage"; "Current"]
           [[CNum (-1); CNum (-10)]; [CNum (1#10); CNum 2]; [CNum (-1#10); CNum 0]]))
  = true /\
  bind (preprocess 1 (mk_frame ["Voltage"; "Current"]
          [[CNum (-1); CNum (-10)]; [CNum (1#10); CNum 2]; [CNum (-1#10); CNum 0]]))
       (preprocess 1)
  = Err (NotOneDimensional "I").
Proof. split; reflexivity. Qed.

(** C2 (amended): preprocessing is not idempotent: for every table that
    preprocessing accepts and in which no column name, with surrounding
    whitespace stripped, is ['J'], preprocessing the result again (with any
    area) raises an error, since the appended ['J'] column
    exact-matches the current-name list, is renamed to ['I'] and leaves two
    columns named ['I']. *)
Theorem preprocess_rerun_fails (area area' : Q) (df out : frame) :
  ~ In "J" (map strip (columns df)) ->
  preprocess area df = Ok out ->
  exists e, preprocess area' out = Err e.
Proof.
  intros HnoJ H. unfold preprocess in H.
  apply bind_ok in H as [[[[kV kI] cols2] pts] [Hc Hout]].
  simpl in Hout. injection Hout as <-.
  apply preprocess_curve_columns in Hc as (vi & _ & Hcols2 & HkV & HkI).
  apply column_index_In in HkV, HkI.
  assert (HJ : existsb (String.eqb "J") cols2 = false).
  { apply not_true_iff_false. intros Hex. apply existsb_exists in Hex as [x [Hx Heq]].
    apply String.eqb_eq in Heq. subst x. rewrite Hcols2 in Hx.
    apply in_map_iff in Hx as [y [Hy Hin]].
    destruct (String.eqb y "J") eqn:Ey.
    - apply String.eqb_eq in Ey. subst. contradiction.
    - apply String.eqb_neq in Ey. eapply rename_not_J; eauto. }
  unfold preprocess, out_columns. rewrite HJ.
  enough (Hcur : exists e, preprocess_curve area' (mk_frame (cols2 ++ ["J"])
            (map (write_row kV kI cols2) pts)) = Err e)
    by (destruct Hcur as [e He]; rewrite He; exists e; reflexivity).
  unfold preprocess_curve. cbn [columns]. cbv zeta.
  rewrite map_app.
  assert (HV : In "V" (map strip cols2)) by (apply (in_map strip) in HkV; exact HkV).
  assert (HI : In "I" (map strip cols2)) by (apply (in_map strip) in HkI; exact HkI).
  change (map strip ["J"]) with ["J"].
  rewrite identify_by_rules. unfold identify_rules, choose_column.
  rewrite (last_exact_app_last CURRENT_COLUMN_NAMES (map strip cols2) "J") by reflexivity.
  destruct (last_exact_In VOLTAGE_COLUMN_NAMES (map strip cols2 ++ ["J"]) "V")
    as [d Hd]; [apply in_or_app; auto | reflexivity |].
  rewrite Hd. cbn [bind fst snd].
  assert (HdI : d <> "I").
  { intros ->. apply last_exact_match in Hd. discriminate. }
  rewrite map_app. change (map (rename d "J") ["J"]) with ["I"].
  destruct (column_index "V" (map (rename d "J") (map strip cols2) ++ ["I"]));
    [| eexists; reflexivity].
  cbn [bind].
  destruct (column_index_dup "I" (map (rename d "J") (map strip cols2))) as [e He].
  - replace "I" with (rename d "J" "I") at 1.
    + apply in_map. exact HI.
    + unfold rename. change (String.eqb "I" "J") with false.
      apply String.eqb_neq in HdI. rewrite String.eqb_sym in HdI. rewrite HdI.
      reflexivity.
  - rewrite He. exists e. reflexivity.
Qed.

Lemma preprocess_rerun_fails_witness :
  exists out,
    preprocess 1 (mk_frame ["Voltage"; "Current"]
      [[CNum (-1); CNum (-10)]; [CNum (1#10); CNum 2]; [CNum (-1#10); CNum 0]]) = Ok out /\
    exists e, preprocess 1 out = Err e.
Proof.
  eexists. split; [reflexivity |].
  apply (preprocess_rerun_fails 1 1
    (mk_frame ["Voltage"; "Current"]
      [[CNum (-1); CNum (-10)]; [CNum (1#10); CNum 2]; [CNum (-1#10); CNum 0]])).
  - simpl. intros [H | [H | []]]; discriminate.
  - reflexivity.
Defined.

(** ** Preprocessing: order and quadrant of the returned Curve *)

Open Scope Q_scope.

Lemma Qltb_iff a b : Qltb a b = true <-> a < b.
Proof.
  unfold Qltb. rewrite negb_true_iff. split.
  - intros H. apply Qnot_le_lt. intros H'. apply Qle_bool_iff in H'. congruence.
  - intros H. apply not_true_iff_false. intros H'. apply Qle_bool_iff in H'.
    apply (Qlt_not_le _ _ H H').
Qed.

Lemma Qle_bool_total a b : Qle_bool a b = false -> Qle_bool b a = true.
Proof.
  intros H. apply Qle_bool_iff. apply Qlt_le_weak. apply Qnot_le_lt.
  intros H'. apply Qle_bool_iff in H'. congruence.
Qed.

Definition leV (a b : sample) : Prop := Qle_bool (sV a) (sV b) = true.

Lemma insert_by_V_sorted x l : Sorted leV l -> Sorted leV (insert_by_V x l).
Proof.
  induction l as [| a l IH]; intros Hs; simpl.
  - repeat constructor.
  - destruct (Qle_bool (sV x) (sV a)) eqn:E.
    + constructor; [exact Hs | constructor; exact E].
    + apply Sorted_inv in Hs as [Hs Hhd]. constructor; [apply IH, Hs |].
      destruct l as [| b l']; simpl.
      * constructor. apply Qle_bool_total, E.
      * destruct (Qle_bool (sV x) (sV b)).
        -- constructor. apply Qle_bool_total, E.
        -- inversion Hhd; subst. constructor. assumption.
Qed.

Lemma sort_by_V_sorted l : Sorted leV (sort_by_V l).
Proof. induction l; simpl; [constructor | apply insert_by_V_sorted; auto]. Qed.

Lemma insert_by_V_perm x l : Permutation (insert_by_V x l) (x :: l).
Proof.
  induction l as [| a l IH]; simpl; [auto |].
  destruct (Qle_bool (sV x) (sV a)); [auto |].
  eapply perm_trans; [apply perm_skip, IH | apply perm_swap].
Qed.

Lemma sort_by_V_perm l : Permutation (sort_by_V l) l.
Proof.
  induction l as [| a l IH]; simpl; [auto |].
  eapply perm_trans; [apply insert_by_V_perm | apply perm_skip, IH].
Qed.

Lemma argmax_fold {A} (f : A -> Q) l b :
  let m := fold_left (fun best y => if Qltb (f best) (f y) then y else best) l b in
  (m = b \/ In m l) /\ f b <= f m /\ forall y, In y l -> f y <= f m.
Proof.
  revert b; induction l as [| a l IH]; intros b; simpl.
  - split; [auto | split; [apply Qle_refl | tauto]].
  - destruct (Qltb (f b) (f a)) eqn:E.
    + apply Qltb_iff in E.
      destruct (IH a) as [Hin [Hle Hall]]. split; [| split].
      * right. destruct Hin as [-> | Hin]; auto.
      * apply Qlt_le_weak. eapply Qlt_le_trans; eauto.
      * intros y [-> | Hy]; auto.
    + destruct (IH b) as [Hin [Hle Hall]]. split; [| split].
      * destruct Hin as [-> | Hin]; auto.
      * exact Hle.
      * intros y [-> | Hy]; auto.
        apply Qle_trans with (f b); [| exact Hle].
        apply Qnot_lt_le. intros Hlt. apply Qltb_iff in Hlt. congruence.
Qed.

Lemma argmax_spec {A} (f : A -> Q) l m :
  argmax f l = Some m -> In m l /\ forall y, In y l -> f y <= f m.
Proof.
  destruct l as [| b l]; simpl; [discriminate |]. intros [= <-].
  destruct (argmax_fold f l b) as [Hin [Hle Hall]]. split.
  - destruct Hin as [-> | Hin]; auto.
  - intros y [-> | Hy]; auto.
Qed.

Lemma polarity_spec pts pts2 :
  polarity pts = Ok pts2 ->
  exists g m,
    In m pts /\ (forall y, In y pts -> Qabs (sI y) <= Qabs (sI m)) /\
    pts2 = map g pts /\
    (forall y, Qabs (sI (g y)) == Qabs (sI y)) /\
    (~ sV (g m) == 0 -> ~ sI (g m) == 0 -> 0 < sV (g m) /\ 0 < sI (g m)).
Proof.
  unfold polarity. destruct (argmax (fun p => Qabs (sI p)) pts) as [m |] eqn:Hm;
    [| discriminate].
  apply argmax_spec in Hm as [Hin Hmax].
  destruct (Qltb (sV m) 0) eqn:Ev; destruct (Qltb (sI m) 0) eqn:Ei;
  destruct (Qltb 0 (sV m)) eqn:Ev'; destruct (Qltb 0 (sI m)) eqn:Ei';
  simpl; intros [= <-];
  repeat match goal with
  | H : Qltb _ _ = true |- _ => apply Qltb_iff in H
  | H : Qltb _ _ = false |- _ =>
      apply not_true_iff_false in H; rewrite Qltb_iff in H
  end.
  all: eexists; exists m;
    (split; [exact Hin | split; [exact Hmax | split; [first [reflexivity | symmetry; apply map_id] | split]]]);
    try (intros y; cbn [flip_I flip_V sI sV]; rewrite ?Qabs_opp; reflexivity);
    cbn [flip_I flip_V sI sV]; intros Hv Hi;
    try (split; (apply (Qopp_lt_compat _ 0) || idtac); assumption);
    destruct (Q_dec (sV m) 0) as [[Hv1 | Hv1] | Hv1]; try contradiction;
    destruct (Q_dec (sI m) 0) as [[Hi1 | Hi1] | Hi1]; try contradiction;
    tauto.
Qed.

Lemma normalize_abs_mono area a b :
  Qabs (sI a) <= Qabs (sI b) ->
  Qabs (pJ (normalize area a)) <= Qabs (pJ (normalize area b)).
Proof.
  intros H. unfold normalize; cbn [pJ]. destruct (Qltb 0 area); [| exact H].
  unfold Qdiv. rewrite !Qabs_Qmult.
  apply Qmult_le_compat_r; [exact H | apply Qabs_nonneg].
Qed.

Lemma normalize_J_pos area a : 0 < sI a -> 0 < pJ (normalize area a).
Proof.
  intros H. unfold normalize; cbn [pJ]. destruct (Qltb 0 area) eqn:E; [| exact H].
  apply Qltb_iff in E. unfold Qdiv. apply Qmult_lt_0_compat; [exact H |].
  apply Qinv_lt_0_compat, E.
Qed.

Lemma normalize_J_zero area a : sI a == 0 -> pJ (normalize area a) == 0.
Proof.
  intros H. unfold normalize; cbn [pJ]. destruct (Qltb 0 area); [| exact H].
  unfold Qdiv. rewrite H. apply Qmult_0_l.
Qed.

Lemma normalize_sorted area l :
  Sorted leV l -> Sorted (fun p q => pV p <= pV q) (map (normalize area) l).
Proof.
  induction 1 as [| a l Hs IH Hhd]; simpl; constructor; [exact IH |].
  destruct Hhd as [| b l' Hab]; simpl; constructor.
  apply Qle_bool_iff, Hab.
Qed.

(** C4 (counterexample): two tables whose returned Curve has its (first)
    sample of maximum |J| outside the first quadrant: (V, I) = (-1, -5),
    (1, 5), where the two samples tie and the re-sort puts (-1, -5) first;
    and (0, 5), (1, 5), where the offset correction makes every J zero. *)
Lemma preprocess_quadrant_fails :
  match preprocess_curve 1 (mk_frame ["V"; "I"] [[CNum (-1); CNum (-5)]; [CNum 1; CNum 5]]) with
  | Ok (_, _, _, pts) => first_max_J_in_Q1 pts
  | Err _ => true
  end = false /\
  match preprocess_curve 1 (mk_frame ["V"; "I"] [[CNum 0; CNum 5]; [CNum 1; CNum 5]]) with
  | Ok (_, _, _, pts) => first_max_J_in_Q1 pts
  | Err _ => true
  end = false.
Proof. split; reflexivity. Qed.

(** C4 (amended): the returned Curve has V non-decreasing, and a sample whose
    |J| is strictly larger than that of every other sample has V > 0 and
    J > 0 whenever its V and J are both non-zero. *)
Theorem preprocess_order_quadrant (area : Q) (df : frame) kV kI cols2 pts :
  preprocess_curve area df = Ok (kV, kI, cols2, pts) ->
  Sorted (fun p q => pV p <= pV q) pts /\
  (forall k p, nth_error pts k = Some p ->
     (forall j q, j <> k -> nth_error pts j = Some q -> Qabs (pJ q) < Qabs (pJ p)) ->
     ~ pV p == 0 -> ~ pJ p == 0 -> 0 < pV p /\ 0 < pJ p).
Proof.
  unfold preprocess_curve. intros H.
  apply bind_ok in H as [vi [_ H]].
  apply bind_ok in H as [kV' [_ H]].
  apply bind_ok in H as [kI' [_ H]].
  apply bind_ok in H as [pts1 [_ H]].
  apply bind_ok in H as [pts2 [Hpol H]].
  injection H as _ _ _ <-.
  split; [apply normalize_sorted, sort_by_V_sorted |].
  apply polarity_spec in Hpol as (g & m & Hin & Hmax & -> & Habs & Hq1).
  intros k p Hk Huniq Hv Hj.
  assert (Hgm : In (normalize area (g m)) (map (normalize area) (sort_by_V (map g pts1)))).
  { apply in_map. eapply Permutation_in; [symmetry; apply sort_by_V_perm |].
    apply in_map, Hin. }
  apply In_nth_error in Hgm as [j Hj'].
  destruct (Nat.eq_dec j k) as [-> | Hne].
  - rewrite Hk in Hj'. injection Hj' as ->.
    cbn [normalize pV] in Hv |- *.
    assert (HI : ~ sI (g m) == 0) by (intros H0; apply Hj, normalize_J_zero, H0).
    destruct (Hq1 Hv HI) as [H1 H2]. split; [exact H1 |].
    apply normalize_J_pos, H2.
  - exfalso.
    pose proof (Huniq j _ Hne Hj') as Hlt.
    apply nth_error_In in Hk.
    apply in_map_iff in Hk as [y [<- Hy]].
    apply (Permutation_in _ (sort_by_V_perm _)) in Hy.
    apply in_map_iff in Hy as [y0 [<- Hy0]].
    apply (Qlt_not_le _ _ Hlt).
    apply normalize_abs_mono.
    rewrite !Habs. apply Hmax, Hy0.
Qed.

Lemma preprocess_order_quadrant_witness :
  exists pts,
    preprocess_curve 1 (mk_frame ["V"; "I"] [[CNum 0; CNum 0]; [CNum 1; CNum 5]])
    = Ok (0%nat, 1%nat, ["V"; "I"], pts) /\
    Sorted (fun p q => pV p <= pV q) pts.
Proof.
  eexists. split; [reflexivity |].
  eapply proj1, (preprocess_order_quadrant 1
    (mk_frame ["V"; "I"] [[CNum 0; CNum 0]; [CNum 1; CNum 5]]) 0%nat 1%nat ["V"; "I"]).
  reflexivity.
Defined.

(** ** The smoothing stage *)

Open Scope R_scope.

Lemma logJ_point_spec x :
  (x = 0 -> logJ_point x = NaN) /\ (x <> 0 -> logJ_point x = Fin (log10 (Rabs x))).
Proof.
  unfold logJ_point, Reqb. split; intros Hx.
  - destruct (Req_EM_T (Rabs x) 0) as [_ | H]; [reflexivity |].
    exfalso. apply H. rewrite Hx. apply Rabs_R0.
  - destruct (Req_EM_T (Rabs x) 0) as [H | _]; [| reflexivity].
    exfalso. exact (Rabs_no_R0 x Hx H).
Qed.

(** C5 (counterexample): a one-sample curve with J = -1 is left unsmoothed
    (window 1 < 3), whatever the filter, and its logJ is log10 1 = 0, a
    defined value at a sample with J_smooth < 0. *)
Lemma smooth_negative_logJ_defined :
  (forall savgol_filter : list R -> Z -> Z -> result (list R),
     smooth_data savgol_filter [-1] = ([-1], [Fin (log10 1)])) /\
  log10 1 = 0.
Proof.
  split.
  - intros sg. unfold smooth_data. cbn -[logJ_point].
    f_equal. f_equal. rewrite (proj2 (logJ_point_spec (-1))) by lra.
    f_equal. f_equal. rewrite Rabs_left by lra. lra.
  - unfold log10. rewrite ln_1. unfold Rdiv. apply Rmult_0_l.
Qed.

(** C5 (amended): after the smoothing stage, logJ has one value per sample:
    NaN where J_smooth = 0 and log10 |J_smooth| at every other sample,
    negative J_smooth included. *)
Theorem smooth_logJ
  (savgol_filter : list R -> Z -> Z -> result (list R)) (Js : list R) :
  let '(js, lj) := smooth_data savgol_filter Js in
  List.length lj = List.length js /\
  forall k x, nth_error js k = Some x ->
    (x = 0 -> nth_error lj k = Some NaN) /\
    (x <> 0 -> nth_error lj k = Some (Fin (log10 (Rabs x)))).
Proof.
  unfold smooth_data. cbv zeta.
  set (js := if Z.ltb _ 3 then Js else _).
  split; [apply length_map |].
  intros k x Hk. rewrite nth_error_map, Hk. cbn [option_map].
  destruct (logJ_point_spec x) as [H0 H1].
  split; intros Hx; [rewrite H0 | rewrite H1]; auto.
Qed.

(** ** Concrete evaluation of the extraction *)

Ltac no_dec t :=
  lazymatch t with
  | context [Rlt_dec _ _] => fail
  | context [Rle_dec _ _] => fail
  | context [Req_EM_T _ _] => fail
  | _ => idtac
  end.

Ltac exp_facts :=
  repeat match goal with
  | |- context [exp ?x] =>
      lazymatch goal with _ : 0 < exp x |- _ => fail | _ => pose proof (exp_pos x) end
  end.

Ltac rsolve := clear; exp_facts; lra.

(** Decide the innermost real comparison of the goal. *)
Ltac rdec :=
  match goal with
  | |- context [Rlt_dec ?a ?b] =>
      no_dec a; no_dec b;
      first [ assert (a < b) by rsolve | assert (~ a < b) by rsolve ];
      destruct (Rlt_dec a b); try contradiction
  | |- context [Rle_dec ?a ?b] =>
      no_dec a; no_dec b;
      first [ assert (a <= b) by rsolve | assert (~ a <= b) by rsolve ];
      destruct (Rle_dec a b); try contradiction
  | |- context [Req_EM_T ?a ?b] =>
      no_dec a; no_dec b;
      first [ assert (a = b) by rsolve | assert (a <> b) by rsolve ];
      destruct (Req_EM_T a b); try contradiction
  end.

Ltac ev_with_lists :=
  cbv beta iota zeta delta [
    extract_parameters rsh_step rsh_window nj0_step rs_step bind init_params
    set_Rsh set_Rs set_n_J0 V J J_smooth Rsh Rs J0 n r_squared
    filter argmin_n argmax_V
    map List.length combine fold_left Nat.ltb Nat.leb andb negb orb fst snd
    R_SH_VOLTAGE_RANGE Rltb Rleb Reqb Rmax Rmin q k_B T_STC
    gradient grad_tail zip_with in_band
    num_lt nmul ndiv nexp nln nadd nsub nneg inf_times isnan pymax0 linregress
    calculate_differential_resistance isfinite nabs];
  rewrite ?ln_exp.

(** The same, leaving [filter] and the arg-min/max searches folded. *)
Ltac ev :=
  cbv beta iota zeta delta [
    extract_parameters rsh_step rsh_window nj0_step rs_step bind init_params
    set_Rsh set_Rs set_n_J0 V J J_smooth Rsh Rs J0 n r_squared
    map List.length combine fold_left Nat.ltb Nat.leb andb negb orb fst snd
    R_SH_VOLTAGE_RANGE Rltb Rleb Reqb Rmax Rmin q k_B T_STC
    gradient grad_tail zip_with in_band
    num_lt nmul ndiv nexp nln nadd nsub nneg inf_times isnan pymax0 linregress
    calculate_differential_resistance isfinite nabs];
  rewrite ?ln_exp.

Ltac reval_small := repeat (ev_with_lists; rdec); ev_with_lists; try reflexivity.

(** Evaluate a closed filter or search on its own before it is used. *)
Ltac eval_part :=
  match goal with
  | |- context [filter ?f ?l] =>
      let H := fresh in eassert (H : filter f l = _) by reval_small; rewrite H; clear H
  | |- context [argmin_n ?l] =>
      let H := fresh in eassert (H : argmin_n l = _) by reval_small; rewrite H; clear H
  | |- context [argmax_V ?l] =>
      let H := fresh in eassert (H : argmax_V l = _) by reval_small; rewrite H; clear H
  end.

Ltac reval := repeat (first [ progress ev | eval_part | rdec ]); try reflexivity.

(** ** Physics: regression, resistance and fault behaviour *)

Lemma sum_map_scale (G : R) (f : R -> R) (l : list R) :
  sum (map (fun x => G * f x) l) = G * sum (map f l).
Proof. induction l as [|a l IH]; simpl; [ring | rewrite IH; ring]. Qed.

Lemma sum_scale (G : R) (l : list R) : sum (map (fun x => G * x) l) = G * sum l.
Proof. induction l as [|a l IH]; simpl; [ring | rewrite IH; ring]. Qed.

Lemma zip_with_map_r {A B C} (f : A -> B -> C) (g : A -> B) (xs : list A) :
  zip_with f xs (map g xs) = map (fun x => f x (g x)) xs.
Proof. induction xs as [|a xs IH]; simpl; [reflexivity | rewrite IH; reflexivity]. Qed.

Lemma fold_Rmax_ge (l : list R) : forall x0 x, In x (x0 :: l) -> x <= fold_left Rmax l x0.
Proof.
  induction l as [|a l IH]; intros x0 x Hx; simpl in *.
  - destruct Hx as [<- | []]. lra.
  - destruct Hx as [<- | [<- | Hx]].
    + eapply Rle_trans; [apply Rmax_l | apply IH; left; reflexivity].
    + eapply Rle_trans; [apply Rmax_r | apply IH; left; reflexivity].
    + apply IH; right; exact Hx.
Qed.

Lemma fold_Rmin_le (l : list R) : forall x0 x, In x (x0 :: l) -> fold_left Rmin l x0 <= x.
Proof.
  induction l as [|a l IH]; intros x0 x Hx; simpl in *.
  - destruct Hx as [<- | []]. lra.
  - destruct Hx as [<- | [<- | Hx]].
    + eapply Rle_trans; [apply IH; left; reflexivity | apply Rmin_l].
    + eapply Rle_trans; [apply IH; left; reflexivity | apply Rmin_r].
    + apply IH; right; exact Hx.
Qed.

Lemma sum_sq_nonneg (m : R) (l : list R) : 0 <= sum (map (fun x => (x - m) * (x - m)) l).
Proof.
  induction l as [|a l IH]; simpl; [lra |].
  pose proof (Rle_0_sqr (a - m)). unfold Rsqr in *. lra.
Qed.

Lemma sum_sq_zero (m : R) (l : list R) :
  sum (map (fun x => (x - m) * (x - m)) l) = 0 -> forall x, In x l -> x = m.
Proof.
  induction l as [|a l IH]; simpl; intros Hs x Hx; [destruct Hx |].
  pose proof (Rle_0_sqr (a - m)) as Ha. pose proof (sum_sq_nonneg m l) as Hl.
  unfold Rsqr in Ha.
  destruct Hx as [<- | Hx].
  - assert (Hz : (a - m) * (a - m) = 0) by lra.
    apply Rmult_integral in Hz. lra.
  - apply IH; [lra | exact Hx].
Qed.

(** A noiseless line through the origin: the regression slope is its gradient. *)
Lemma linregress_linear (xs : list R) (G : R) (a b : R) :
  In a xs -> In b xs -> a <> b ->
  exists i r, linregress xs (map (fun x => G * x) xs) = Ok (G, i, r).
Proof.
  intros Ha Hb Hab.
  destruct xs as [|x0 xs']; [destruct Ha |].
  unfold linregress. cbn [map].
  assert (Hne : Reqb (fold_left Rmax xs' x0) (fold_left Rmin xs' x0) = false).
  { unfold Reqb. destruct (Req_EM_T _ _) as [He|]; [exfalso | reflexivity].
    pose proof (fold_Rmax_ge xs' x0 a Ha). pose proof (fold_Rmax_ge xs' x0 b Hb).
    pose proof (fold_Rmin_le xs' x0 a Ha). pose proof (fold_Rmin_le xs' x0 b Hb).
    lra. }
  rewrite Hne. cbn [andb].
  rewrite <- (map_cons (fun x => G * x)). rewrite zip_with_map_r, sum_scale.
  set (L := x0 :: xs'). set (nn := INR (List.length L)).
  set (m := sum L / nn).
  assert (Hnn : nn <> 0).
  { unfold nn, L. cbn [List.length]. rewrite S_INR. pose proof (pos_INR (List.length xs')). lra. }
  replace (G * sum L / nn) with (G * m) by (unfold m, Rdiv; ring).
  rewrite (map_ext (fun x => (x - m) * (G * x - G * m)) (fun x => G * ((x - m) * (x - m))))
    by (intros; ring).
  rewrite sum_map_scale.
  set (S := sum (map (fun x => (x - m) * (x - m)) L)).
  assert (HS : S <> 0).
  { intro HS. apply Hab.
    rewrite (sum_sq_zero m L HS a Ha), (sum_sq_zero m L HS b Hb). reflexivity. }
  do 2 eexists.
  match goal with |- Ok (?s, ?i0, ?r0) = _ => replace s with G; [reflexivity |] end.
  change (sum ((x0 - m) * (x0 - m) :: map (fun x => (x - m) * (x - m)) xs')) with S.
  field. split; assumption.
Qed.

Lemma Rltb_true_iff (a b : R) : Rltb a b = true <-> a < b.
Proof. unfold Rltb. destruct (Rlt_dec a b); split; intros; auto; discriminate || contradiction. Qed.

Lemma pymax0_nonneg (x : num) :
  pymax0 x = PInf \/ exists r, pymax0 x = Fin r /\ 0 <= r.
Proof.
  unfold pymax0. destruct x as [r| | |]; cbn [num_lt].
  - destruct (Rltb 0 r) eqn:E.
    + right. exists r. apply Rltb_true_iff in E. split; [reflexivity | lra].
    + right. exists 0. split; [reflexivity | lra].
  - left; reflexivity.
  - right. exists 0. split; [reflexivity | lra].
  - right. exists 0. split; [reflexivity | lra].
Qed.

Ltac ok_inv H := injection H; intros <-.

Lemma rsh_step_Rs (df : list spt) (res r : params) :
  rsh_step df res = Ok r -> Rs r = Rs res.
Proof.
  unfold rsh_step. cbv zeta. destruct (Nat.ltb _ _); intro H; [| ok_inv H; reflexivity].
  destruct (linregress _ _) as [[[s i] r0]|e]; cbn [bind] in H; [| discriminate].
  destruct (negb _); ok_inv H; reflexivity.
Qed.

Lemma nj0_step_Rs (df : list spt) (res r : params) :
  nj0_step df res = Ok r -> Rs r = Rs res.
Proof.
  unfold nj0_step. cbv zeta. destruct (Nat.ltb _ _); intro H; [| ok_inv H; reflexivity].
  destruct (gradient _) as [dV|e]; cbn [bind] in H; [| discriminate].
  destruct (gradient _) as [dl|e]; cbn [bind] in H; [| discriminate].
  destruct (argmin_n _) as [[pc nb]|]; [| ok_inv H; reflexivity].
  destruct (Nat.ltb _ _); [| ok_inv H; reflexivity].
  destruct (linregress _ _) as [[[s i] r0]|e]; cbn [bind] in H; [| discriminate].
  ok_inv H; reflexivity.
Qed.

(** C8: in every successful run of [extract_parameters], Rs stays NaN unless
    n and J0 are both defined; with n and J0 defined and the first sample of
    maximal V as (V_max, J_max), Rs stays NaN when J_max <= 0 or when
    term = J_max/J0 + 1 is not > 0, and otherwise
    Rs = max(0, (V_max - (n*k_B*T/q)*ln term)/J_max); a defined Rs is +inf or
    a non-negative number. *)
Theorem extract_Rs_rule (df : list spt) (res : params) :
  extract_parameters df = Ok res ->
  ((isnan (n res) || isnan (J0 res))%bool = true -> Rs res = NaN) /\
  (forall pm, argmax_V df = Some pm -> isnan (n res) = false -> isnan (J0 res) = false ->
     (J_smooth pm <= 0 -> Rs res = NaN) /\
     (0 < J_smooth pm ->
        num_lt (Fin 0) (nadd (ndiv (Fin (J_smooth pm)) (J0 res)) (Fin 1)) = false ->
        Rs res = NaN) /\
     (0 < J_smooth pm ->
        num_lt (Fin 0) (nadd (ndiv (Fin (J_smooth pm)) (J0 res)) (Fin 1)) = true ->
        Rs res =
          pymax0 (ndiv (nsub (Fin (V pm))
                             (nmul (ndiv (nmul (nmul (n res) (Fin k_B)) (Fin T_STC)) (Fin q))
                                   (nln (nadd (ndiv (Fin (J_smooth pm)) (J0 res)) (Fin 1)))))
                       (Fin (J_smooth pm))))) /\
  (Rs res = NaN \/ Rs res = PInf \/ exists x, Rs res = Fin x /\ 0 <= x).
Proof.
  intros H. unfold extract_parameters in H.
  destruct (rsh_step df init_params) as [r1|e] eqn:E1; cbn [bind] in H; [| discriminate].
  destruct (nj0_step df r1) as [r2|e] eqn:E2; cbn [bind] in H; [| discriminate].
  assert (HRs : Rs r2 = NaN)
    by (rewrite (nj0_step_Rs _ _ _ E2), (rsh_step_Rs _ _ _ E1); reflexivity).
  revert H. unfold rs_step.
  match goal with |- (if ?c then _ else _) = _ -> _ => destruct c eqn:Hc end; intro H.
  2:{ ok_inv H. split; [intros _; exact HRs | split; [| left; exact HRs]].
      intros pm _ Hn HJ. rewrite Hn, HJ in Hc. discriminate. }
  destruct (argmax_V df) as [pm0|] eqn:Ha; [| discriminate].
  cbv zeta in H. revert H.
  destruct (Rltb 0 (J_smooth pm0)) eqn:Hj; intro H.
  - apply Rltb_true_iff in Hj.
    revert H.
    destruct (num_lt (Fin 0) (nadd (ndiv (Fin (J_smooth pm0)) (J0 r2)) (Fin 1))) eqn:Ht;
      intro H.
    + ok_inv H. cbn [set_Rs Rs n J0].
      split.
      { intro Hnan. apply andb_true_iff in Hc as [Hn HJ].
        apply negb_true_iff in Hn, HJ. rewrite Hn, HJ in Hnan. discriminate. }
      split; [| right; apply pymax0_nonneg].
      intros pm Hpm _ _. injection Hpm as <-.
      split; [intros; lra |]. split; [intros _ Ht'; congruence | reflexivity].
    + ok_inv H. split; [intros _; exact HRs | split; [| left; exact HRs]].
      intros pm Hpm _ _. injection Hpm as <-.
      split; [intros _; exact HRs |]. split; [intros _ _; exact HRs | intros _ Ht'; congruence].
  - ok_inv H. split; [intros _; exact HRs | split; [| left; exact HRs]].
    intros pm Hpm _ _. injection Hpm as <-.
    split; [intros _; exact HRs |].
    split; [intros _ _; exact HRs | intros Hp _].
    apply Rltb_true_iff in Hp. congruence.
Qed.

(** C9 (code evaluation): the Differential Resistance Stage raises on a
    one-sample curve ([np.gradient]); without J_smooth it adds no column;
    when it succeeds, every R_diff value is NaN or a finite number of
    magnitude < 1e10. *)
Theorem diff_res_rule :
  (forall v j, calculate_differential_resistance [v] (Some [j]) = Err GradientTooSmall) /\
  (forall Vs, calculate_differential_resistance Vs None = Ok None) /\
  (forall Vs js out, calculate_differential_resistance Vs (Some js) = Ok (Some out) ->
     forall x, In x out -> x = NaN \/ exists r, x = Fin r /\ Rabs r < 1e10).
Proof.
  split; [reflexivity | split; [reflexivity |]].
  intros Vs js out H x Hx. unfold calculate_differential_resistance in H.
  destruct (gradient Vs) as [dV|e]; cbn [bind] in H; [| discriminate].
  destruct (gradient js) as [dJ|e]; cbn [bind] in H; [| discriminate].
  injection H as <-.
  apply in_map_iff in Hx as [y [<- Hy]]. apply in_map_iff in Hy as [z [<- _]].
  destruct z as [r| | |]; cbn [isfinite nabs num_lt]; try (left; reflexivity).
  destruct (Rltb (Rabs r) 1e10) eqn:E; [right | left; reflexivity].
  exists r. split; [reflexivity | apply Rltb_true_iff; exact E].
Qed.

(** C6 (code evaluation): three samples at V = 0 on a line J = G*V make the
    Rsh regression raise (all x identical) instead of leaving a value; on a
    noiseless line J = G*V, G <> 0, with at least 3 window samples not all at
    the same V, Rsh = 1/G. *)
Theorem rsh_linear_and_constant :
  (forall G j1 j2 j3,
     rsh_step [mk_spt 0 (G * 0) j1; mk_spt 0 (G * 0) j2; mk_spt 0 (G * 0) j3] init_params
     = Err IdenticalX) /\
  (forall df G p1 p2, G <> 0 -> (2 < List.length (rsh_window df))%nat ->
     (forall p, In p (rsh_window df) -> J p = G * V p) ->
     In p1 (rsh_window df) -> In p2 (rsh_window df) -> V p1 <> V p2 ->
     rsh_step df init_params = Ok (set_Rsh (Fin (1 / G)) init_params)).
Proof.
  split.
  - intros. reval.
  - intros df G p1 p2 HG Hlen HJ H1 H2 Hne.
    unfold rsh_step. cbv zeta.
    rewrite (proj2 (Nat.ltb_lt _ _) Hlen).
    replace (map J (rsh_window df)) with (map (fun x => G * x) (map V (rsh_window df)))
      by (rewrite map_map; apply map_ext_in; intros p Hp; symmetry; apply HJ, Hp).
    destruct (linregress_linear (map V (rsh_window df)) G (V p1) (V p2)
                (in_map V _ _ H1) (in_map V _ _ H2) Hne) as [i [r Hr]].
    rewrite Hr. cbn [bind]. unfold Reqb.
    destruct (Req_EM_T G 0); [contradiction | reflexivity].
Qed.

(** C7 (code evaluation): six forward samples whose minimal in-band n_local
    sits at V = 0.3, where three samples share V = 0.3: the fit window holds
    three samples with identical V and the n/J0 step raises instead of
    setting n, J0 and r_squared. *)
Theorem nj0_window_identical_V :
  nj0_step
    [mk_spt 0.2 (exp 4) (exp 4); mk_spt 0.3 (exp 6) (exp 6); mk_spt 0.3 (exp 6) (exp 6);
     mk_spt 0.3 (exp 6) (exp 6); mk_spt 0.4 (exp 9) (exp 9); mk_spt 0.5 (exp 10) (exp 10)]
    init_params
  = Err IdenticalX.
Proof. reval. Qed.

(** C1 (code evaluation): a curve of three samples at V = 0, J = 0 makes
    [extract_parameters] raise from the Rsh regression, so n, J0 and Rs are
    not computed; a one-sample curve makes the Differential Resistance Stage
    raise from [np.gradient]. *)
Theorem extraction_faults_escape :
  extract_parameters [mk_spt 0 0 0; mk_spt 0 0 0; mk_spt 0 0 0] = Err IdenticalX /\
  (forall v j, calculate_differential_resistance [v] (Some [j]) = Err GradientTooSmall).
Proof. split; [reval | reflexivity]. Qed.

(** ** Preprocessing: the rows of the returned Curve and table *)

Open Scope Q_scope.

Lemma Qltb_false a b : Qltb a b = false -> b <= a.
Proof. unfold Qltb. rewrite negb_false_iff. apply Qle_bool_iff. Qed.

Lemma argmin_fold {A} (f : A -> Q) l b :
  let m := fold_left (fun best y => if Qltb (f y) (f best) then y else best) l b in
  (m = b \/ In m l) /\ f m <= f b /\ forall y, In y l -> f m <= f y.
Proof.
  revert b; induction l as [| a l IH]; intros b; simpl.
  - split; [auto | split; [apply Qle_refl | tauto]].
  - destruct (Qltb (f a) (f b)) eqn:E.
    + apply Qltb_iff in E.
      destruct (IH a) as [Hin [Hle Hall]]. split; [| split].
      * right. destruct Hin as [-> | Hin]; auto.
      * apply Qlt_le_weak. eapply Qle_lt_trans; eauto.
      * intros y [-> | Hy]; auto.
    + apply Qltb_false in E.
      destruct (IH b) as [Hin [Hle Hall]]. split; [| split].
      * destruct Hin as [-> | Hin]; auto.
      * exact Hle.
      * intros y [-> | Hy]; auto. eapply Qle_trans; eauto.
Qed.

Lemma argmin_spec {A} (f : A -> Q) l m :
  argmin f l = Some m -> In m l /\ forall y, In y l -> f m <= f y.
Proof.
  destruct l as [| b l]; simpl; [discriminate |]. intros [= <-].
  destruct (argmin_fold f l b) as [Hin [Hle Hall]]. split.
  - destruct Hin as [-> | Hin]; auto.
  - intros y [-> | Hy]; auto.
Qed.

Lemma map_sample_id (l : list sample) :
  map (fun p => mk_sample (sV p) (sI p) (srow p)) l = l.
Proof. induction l as [| [v i r] l IH]; simpl; [reflexivity | rewrite IH; reflexivity]. Qed.

Lemma zero_offset_shape l l' :
  zero_offset l = Ok l' ->
  exists off,
    l' = map (fun p => mk_sample (sV p) (shift off (sI p)) (srow p)) l /\
    (off = None -> forall s, In s l -> (1#2) <= Qabs (sV s)) /\
    (forall c, off = Some c ->
       exists z, In z l /\ c = sI z /\ Qabs (sV z) < 1#2 /\
                 forall s, In s l -> Qabs (sV z) <= Qabs (sV s)).
Proof.
  unfold zero_offset.
  destruct (argmin (fun p => Qabs (sV p)) l) as [z|] eqn:Ha; [| discriminate].
  apply argmin_spec in Ha as [Hz Hmin].
  destruct (Qltb (Qabs (sV z)) (1#2)) eqn:E; intros H; injection H as <-.
  - exists (Some (sI z)). split; [reflexivity | split; [discriminate |]].
    intros c [= <-]. exists z. apply Qltb_iff in E. auto.
  - exists None. split; [symmetry; apply map_sample_id | split; [| discriminate]].
    intros _ s Hs. apply Qltb_false in E. eapply Qle_trans; [exact E | apply Hmin, Hs].
Qed.

Lemma polarity_shape l l' :
  polarity l = Ok l' ->
  exists bV bI, l' = map (fun p => mk_sample (sgn bV (sV p)) (sgn bI (sI p)) (srow p)) l.
Proof.
  unfold polarity. destruct (argmax _ l) as [m|]; [| discriminate]. cbv zeta.
  destruct (Qltb (sV m) 0 && Qltb (sI m) 0); [intros H; injection H as <-; exists true, true;
    apply map_ext; intros []; reflexivity |].
  destruct (Qltb (sV m) 0 && Qltb 0 (sI m)); [intros H; injection H as <-; exists true, false;
    apply map_ext; intros []; reflexivity |].
  destruct (Qltb 0 (sV m) && Qltb (sI m) 0); [intros H; injection H as <-; exists false, true;
    apply map_ext; intros []; reflexivity |].
  intros H; injection H as <-. exists false, false. symmetry. apply map_sample_id.
Qed.

Lemma preprocess_curve_shape area df kV kI cols2 pts :
  preprocess_curve area df = Ok (kV, kI, cols2, pts) ->
  column_index "V" cols2 = Ok kV /\ column_index "I" cols2 = Ok kI /\
  exists bV bI off,
    Permutation (map (fun p => (pV p, pI p, pJ p, prow p)) pts)
      (map (fun s => (sgn bV (sV s), sgn bI (shift off (sI s)),
                      if Qltb 0 area then sgn bI (shift off (sI s)) / area
                      else sgn bI (shift off (sI s)), srow s))
           (coerce_dropna kV kI (rows df))) /\
    (off = None -> forall s, In s (coerce_dropna kV kI (rows df)) -> (1#2) <= Qabs (sV s)) /\
    (forall c, off = Some c ->
       exists z, In z (coerce_dropna kV kI (rows df)) /\ c = sI z /\ Qabs (sV z) < 1#2 /\
                 forall s, In s (coerce_dropna kV kI (rows df)) -> Qabs (sV z) <= Qabs (sV s)).
Proof.
  intros H. unfold preprocess_curve in H.
  destruct (identify _) as [vi|e]; cbn [bind] in H; [| discriminate].
  destruct (column_index "V" _) as [kV'|e] eqn:EV; cbn [bind] in H; [| discriminate].
  destruct (column_index "I" _) as [kI'|e] eqn:EI; cbn [bind] in H; [| discriminate].
  destruct (zero_offset _) as [pts1|e] eqn:Hz; cbn [bind] in H; [| discriminate].
  destruct (polarity pts1) as [pts2|e] eqn:Hp; cbn [bind] in H; [| discriminate].
  injection H as <- <- <- <-. split; [exact EV | split; [exact EI |]].
  set (num := coerce_dropna kV' kI' (rows df)) in *.
  assert (Hin : forall s, In s num -> In s (sort_by_V num))
    by (intros s; apply Permutation_in, Permutation_sym, sort_by_V_perm).
  apply zero_offset_shape in Hz as [off [-> [Hn Hs]]].
  apply polarity_shape in Hp as [bV [bI ->]].
  exists bV, bI, off. split; [| split].
  - rewrite map_map. eapply Permutation_trans; [apply Permutation_map, sort_by_V_perm |].
    rewrite !map_map. eapply Permutation_trans; [apply Permutation_map, sort_by_V_perm |].
    erewrite map_ext; [apply Permutation_refl | intros [v i r]; reflexivity].
  - intros Ho s Hs'. apply Hn; auto.
  - intros c Hc. destruct (Hs c Hc) as [z [Hz [Hcz [Hlt Hmin]]]].
    exists z. split; [apply Permutation_in with (sort_by_V num); [apply sort_by_V_perm | exact Hz] |].
    split; [exact Hcz | split; [exact Hlt |]]. intros s Hs'. apply Hmin; auto.
Qed.

Lemma Qabs_sgn b x : Qabs (sgn b x) == Qabs x.
Proof. destruct b; simpl; [apply Qabs_opp | reflexivity]. Qed.

(** The image of a numeric row in the Curve, and back. *)
Lemma shape_image {A B} (T : A -> B) (F : sample -> B) (pts : list A) num :
  Permutation (map T pts) (map F num) ->
  (forall s, In s num -> exists p, In p pts /\ T p = F s) /\
  (forall p, In p pts -> exists s, In s num /\ T p = F s).
Proof.
  intros HP. split.
  - intros s Hs. assert (Hm : In (F s) (map T pts))
      by (eapply Permutation_in; [apply Permutation_sym, HP | apply in_map, Hs]).
    apply in_map_iff in Hm as [p [Hp Hin]]. eauto.
  - intros p Hp. assert (Hm : In (T p) (map F num))
      by (eapply Permutation_in; [exact HP | apply in_map, Hp]).
    apply in_map_iff in Hm as [s [Hs Hin]]. eauto.
Qed.

(** X2: when some numeric row has |V| < 0.5, the returned Curve has a sample
    of minimal |V| whose I and J are both 0. *)
Theorem preprocess_offset_zero_point area df kV kI cols2 pts :
  preprocess_curve area df = Ok (kV, kI, cols2, pts) ->
  (exists s, In s (coerce_dropna kV kI (rows df)) /\ Qabs (sV s) < 1#2) ->
  exists p, In p pts /\ pI p == 0 /\ pJ p == 0 /\
            forall p', In p' pts -> Qabs (pV p) <= Qabs (pV p').
Proof.
  intros H [s0 [Hs0 Hlt0]].
  apply preprocess_curve_shape in H as [_ [_ [bV [bI [off [HP [Hn Hs]]]]]]].
  destruct (shape_image _ _ _ _ HP) as [Hto Hfrom].
  destruct off as [c|].
  2:{ exfalso. apply (Qlt_not_le _ _ Hlt0). apply Hn; auto. }
  destruct (Hs c eq_refl) as [z [Hz [-> [_ Hmin]]]].
  destruct (Hto z Hz) as [p [Hp Hpz]]. injection Hpz as HV HI HJ _.
  assert (Hi : pI p == 0) by (rewrite HI; destruct bI; simpl; ring).
  exists p. split; [exact Hp | split; [exact Hi | split]].
  - rewrite HJ. rewrite <- HI. destruct (Qltb 0 area); [| exact Hi].
    rewrite Hi. unfold Qdiv. apply Qmult_0_l.
  - intros p' Hp'. destruct (Hfrom p' Hp') as [s' [Hs' Hps']].
    injection Hps' as HV' _ _ _. rewrite HV, HV', !Qabs_sgn. apply Hmin, Hs'.
Qed.

Lemma coerce_dropna_In kV kI rs s :
  In s (coerce_dropna kV kI rs) ->
  In (srow s) rs /\ num_at (srow s) kV = Some (sV s) /\ num_at (srow s) kI = Some (sI s).
Proof.
  unfold coerce_dropna. intros H. apply in_flat_map in H as [r [Hr Hs]].
  destruct (num_at r kV) eqn:EV, (num_at r kI) eqn:EI; simpl in Hs; try contradiction.
  destruct Hs as [<- | []]. simpl. auto.
Qed.

Lemma indices_of_nth name l k0 k :
  In k (indices_of name l k0) -> (k0 <= k)%nat /\ nth_error l (k - k0) = Some name.
Proof.
  revert k0; induction l as [| c cs IH]; intros k0; simpl; [tauto |].
  destruct (String.eqb c name) eqn:E.
  - intros [<- | Hk].
    + apply String.eqb_eq in E. subst. rewrite Nat.sub_diag. auto.
    + destruct (IH _ Hk) as [Hle Hn]. split; [lia |].
      replace (k - k0)%nat with (S (k - S k0)) by lia. exact Hn.
  - intros Hk. destruct (IH _ Hk) as [Hle Hn]. split; [lia |].
    replace (k - k0)%nat with (S (k - S k0)) by lia. exact Hn.
Qed.

Lemma column_index_nth name l k : column_index name l = Ok k -> nth_error l k = Some name.
Proof.
  unfold column_index. destruct (indices_of name l 0) as [| a [| b rest]] eqn:E;
    try discriminate.
  intros [= <-]. destruct (indices_of_nth name l 0 a) as [_ Hn]; [rewrite E; left; auto |].
  rewrite Nat.sub_0_r in Hn. exact Hn.
Qed.

Lemma num_at_nth r k x : num_at r k = Some x -> nth_error r k = Some (CNum x).
Proof.
  unfold num_at. intros H. destruct (nth_error r k) eqn:E.
  - rewrite (nth_error_nth r k CNaN E) in H. destruct c; congruence.
  - apply nth_error_None in E. rewrite nth_overflow in H by exact E. discriminate.
Qed.

Lemma set_nth_same {A} k (x : A) l : nth_error l k <> None -> nth_error (set_nth k x l) k = Some x.
Proof.
  revert k; induction l as [| y l IH]; intros [| k]; simpl; try congruence; auto.
Qed.

Lemma set_nth_other {A} k j (x : A) l : j <> k -> nth_error (set_nth k x l) j = nth_error l j.
Proof.
  revert k j; induction l as [| y l IH]; intros [| k] [| j] Hne; simpl; try congruence; auto.
Qed.

Lemma set_nth_length {A} k (x : A) l : List.length (set_nth k x l) = List.length l.
Proof. revert k; induction l as [| y l IH]; intros [| k]; simpl; auto. Qed.

Lemma nth_error_combine_some {A B} (a : list A) (b : list B) k x y :
  nth_error a k = Some x -> nth_error b k = Some y -> nth_error (combine a b) k = Some (x, y).
Proof.
  revert b k; induction a as [| u a IH]; intros [| v b] [| k]; simpl; try congruence.
  apply IH.
Qed.

(** The cell a written row holds at the position of a column that is not 'J'. *)
Lemma write_row_nth kV kI cols2 p k name x :
  nth_error cols2 k = Some name -> name <> "J" ->
  nth_error (set_nth kI (CNum (pI p)) (set_nth kV (CNum (pV p)) (prow p))) k = Some x ->
  nth_error (write_row kV kI cols2 p) k = Some x.
Proof.
  intros Hc HJ Hx. unfold write_row.
  destruct (existsb (String.eqb "J") cols2).
  - rewrite nth_error_map, (nth_error_combine_some _ _ _ _ _ Hc Hx). simpl.
    destruct (String.eqb name "J") eqn:E; [apply String.eqb_eq in E; contradiction | reflexivity].
  - rewrite nth_error_app1; [exact Hx |]. apply nth_error_Some. congruence.
Qed.

Open Scope nat_scope.

Lemma last_exact_mem names cols c : last_exact names cols = Some c -> In c cols.
Proof.
  induction cols as [| d ds IH]; simpl; [discriminate |].
  destruct (last_exact names ds); [intros [= <-]; auto |].
  destruct (exact_match names d); [intros [= <-]; auto | discriminate].
Qed.

Lemma choose_column_mem names cols c :
  choose_column names cols = Some c ->
  In c cols /\ (exact_match names c = true \/ sub_match names c = true).
Proof.
  unfold choose_column. destruct (last_exact names cols) as [d|] eqn:E.
  - intros [= <-]. split; [eapply last_exact_mem; eauto | left; eapply last_exact_match; eauto].
  - intros H. apply find_some in H as [H1 H2]. auto.
Qed.

Lemma identify_mem S v i : identify S = Ok (v, i) -> In v S /\ In i S.
Proof.
  rewrite identify_by_rules. unfold identify_rules.
  destruct (choose_column VOLTAGE_COLUMN_NAMES S) as [c|] eqn:Ec,
           (choose_column CURRENT_COLUMN_NAMES S) as [d|] eqn:Ed;
  try (intros [= <- <-]; split; [apply (choose_column_mem _ _ _ Ec) | apply (choose_column_mem _ _ _ Ed)]);
  (destruct S as [| a [| b [| x S']]]; simpl; try discriminate; intros [= <- <-]; simpl; auto).
Qed.

Lemma voltage_not_current c :
  exact_match VOLTAGE_COLUMN_NAMES c = true ->
  exact_match CURRENT_COLUMN_NAMES c = false /\ sub_match CURRENT_COLUMN_NAMES c = false.
Proof.
  unfold exact_match, sub_match. intros H.
  apply existsb_exists in H as [m [Hm Heq]]. apply String.eqb_eq in Heq. rewrite <- Heq.
  destruct Hm as [<- | [<- | [<- | [<- | []]]]]; split; reflexivity.
Qed.

(** When the renamed columns have a 'V', identification picked two distinct
    columns. *)
Lemma identify_distinct S v i kV :
  identify S = Ok (v, i) -> column_index "V" (map (rename v i) S) = Ok kV -> v <> i.
Proof.
  intros Hid HkV ->.
  apply column_index_In, in_map_iff in HkV as [x [Hx HxS]].
  unfold rename in Hx. destruct (String.eqb x i) eqn:Exi; [discriminate |].
  subst x. apply String.eqb_neq in Exi.
  rewrite identify_by_rules in Hid. unfold identify_rules in Hid.
  destruct (last_exact_In VOLTAGE_COLUMN_NAMES S "V" HxS eq_refl) as [c Hc].
  assert (Hcv : choose_column VOLTAGE_COLUMN_NAMES S = Some c)
    by (unfold choose_column; rewrite Hc; reflexivity).
  apply last_exact_match in Hc.
  rewrite Hcv in Hid.
  destruct (choose_column CURRENT_COLUMN_NAMES S) as [d|] eqn:Ed.
  - injection Hid as -> ->. apply choose_column_mem in Ed as [_ Hm].
    destruct (voltage_not_current _ Hc) as [H1 H2]. destruct Hm; congruence.
  - destruct S as [| a [| b [| y S']]]; simpl in Hid; try discriminate.
    injection Hid as -> ->. destruct HxS as [H | [H | []]]; congruence.
Qed.

Lemma indices_of_nth_in name l k0 j :
  nth_error l j = Some name -> In (k0 + j) (indices_of name l k0).
Proof.
  revert k0 j; induction l as [| c cs IH]; intros k0 [| j] H; simpl in *; try discriminate.
  - injection H as ->. rewrite String.eqb_refl. left. lia.
  - replace (k0 + S j) with (S k0 + j) by lia.
    destruct (String.eqb c name); [right |]; apply IH, H.
Qed.

Lemma column_index_unique name l k j :
  column_index name l = Ok k -> nth_error l j = Some name -> j = k.
Proof.
  unfold column_index. intros Hk Hj. apply (indices_of_nth_in _ _ 0) in Hj.
  destruct (indices_of name l 0) as [| a [| b rest]]; try discriminate.
  injection Hk as <-. destruct Hj as [-> | []]. reflexivity.
Qed.

(** The 'V' and 'I' of the renamed columns sit where the identified columns
    were. *)
Lemma renamed_positions S v i kV kI :
  identify S = Ok (v, i) ->
  column_index "V" (map (rename v i) S) = Ok kV ->
  column_index "I" (map (rename v i) S) = Ok kI ->
  nth_error S kV = Some v /\ nth_error S kI = Some i.
Proof.
  intros Hid HkV HkI.
  pose proof (identify_distinct _ _ _ _ Hid HkV) as Hvi.
  destruct (identify_mem _ _ _ Hid) as [Hv Hi].
  apply In_nth_error in Hv as [jv Hjv]. apply In_nth_error in Hi as [ji Hji].
  assert (Hrv : rename v i v = "V").
  { unfold rename. apply String.eqb_neq in Hvi. rewrite Hvi, String.eqb_refl. reflexivity. }
  assert (Hri : rename v i i = "I") by (unfold rename; rewrite String.eqb_refl; reflexivity).
  assert (EjV : jv = kV).
  { apply (column_index_unique _ _ _ _ HkV). rewrite nth_error_map, Hjv. simpl. congruence. }
  assert (EjI : ji = kI).
  { apply (column_index_unique _ _ _ _ HkI). rewrite nth_error_map, Hji. simpl. congruence. }
  subst. auto.
Qed.

Open Scope Q_scope.

(** X3: when [preprocess] returns a table, [identify_columns] chose the
    (stripped) column names v and i, at positions kV and kI of the input
    columns; the output has 'V' at kV and 'I' at kI, has a column 'J', holds
    one row per input row with numeric cells at kV and kI, and every output
    row has numbers at kV and kI. *)
Theorem preprocess_table_shape area df out :
  preprocess area df = Ok out ->
  exists v i kV kI,
    identify (map strip (columns df)) = Ok (v, i) /\
    nth_error (map strip (columns df)) kV = Some v /\
    nth_error (map strip (columns df)) kI = Some i /\
    nth_error (columns out) kV = Some "V" /\ nth_error (columns out) kI = Some "I" /\
    In "J" (columns out) /\
    List.length (rows out) = List.length (coerce_dropna kV kI (rows df)) /\
    forall r, In r (rows out) ->
      exists x y, nth_error r kV = Some (CNum x) /\ nth_error r kI = Some (CNum y).
Proof.
  unfold preprocess.
  destruct (preprocess_curve area df) as [[[[kV kI] cols2] pts]|e] eqn:E; cbn [bind];
    [| discriminate].
  intros [= <-]. cbn [columns rows].
  destruct (preprocess_curve_columns _ _ _ _ _ _ E) as [[v i] [Hid [Hc2 [HkV HkI]]]].
  cbn [fst snd] in Hc2. subst cols2.
  destruct (renamed_positions _ _ _ _ _ Hid HkV HkI) as [Pv Pi].
  set (cols2 := map (rename v i) (map strip (columns df))) in *.
  apply preprocess_curve_shape in E as [EV [EI [bV [bI [off [HP _]]]]]].
  apply column_index_nth in EV, EI.
  assert (Hne : kV <> kI) by (intros ->; congruence).
  assert (Hout : forall k name, nth_error cols2 k = Some name ->
                   nth_error (out_columns cols2) k = Some name).
  { intros k name Hk. unfold out_columns. destruct (existsb _ _); [exact Hk |].
    rewrite nth_error_app1; [exact Hk | apply nth_error_Some; congruence]. }
  exists v, i, kV, kI. do 3 (split; [assumption |]).
  split; [auto | split; [auto | split; [| split]]].
  - unfold out_columns. destruct (existsb (String.eqb "J") cols2) eqn:EJ.
    + apply existsb_exists in EJ as [c [Hc Hc']]. apply String.eqb_eq in Hc'. subst. exact Hc.
    + apply in_or_app. right. left. reflexivity.
  - rewrite length_map. apply Permutation_length in HP. rewrite !length_map in HP. exact HP.
  - intros r Hr. apply in_map_iff in Hr as [p [<- Hp]].
    destruct (shape_image _ _ _ _ HP) as [_ Hfrom].
    destruct (Hfrom p Hp) as [s [Hs Hps]]. injection Hps as _ _ _ Hrow.
    apply coerce_dropna_In in Hs as [_ [HsV HsI]].
    rewrite <- Hrow in HsV, HsI. apply num_at_nth in HsV, HsI.
    exists (pV p), (pI p). split.
    + apply (write_row_nth _ _ _ _ _ "V"); [exact EV | discriminate |].
      rewrite set_nth_other by exact Hne. apply set_nth_same. congruence.
    + apply (write_row_nth _ _ _ _ _ "I"); [exact EI | discriminate |].
      apply set_nth_same. intros Hn. apply nth_error_None in Hn.
      rewrite set_nth_length in Hn. apply nth_error_None in Hn. congruence.
Qed.

(** X1: a Curve returned by [preprocess] is, up to order, the rows whose V and
    I cells are numeric, with one sign applied to every V, I shifted by an
    optional offset and given one sign, and J = I/area when area > 0, else
    J = I; there is no offset when every such row has |V| >= 0.5, and
    otherwise the offset is the I of a row of minimal |V|, which is < 0.5. *)
Theorem preprocess_curve_rows area df kV kI cols2 pts :
  preprocess_curve area df = Ok (kV, kI, cols2, pts) ->
  column_index "V" cols2 = Ok kV /\ column_index "I" cols2 = Ok kI /\
  exists bV bI off,
    Permutation (map (fun p => (pV p, pI p, pJ p, prow p)) pts)
      (map (fun s => (sgn bV (sV s), sgn bI (shift off (sI s)),
                      if Qltb 0 area then sgn bI (shift off (sI s)) / area
                      else sgn bI (shift off (sI s)), srow s))
           (coerce_dropna kV kI (rows df))) /\
    (off = None -> forall s, In s (coerce_dropna kV kI (rows df)) -> (1#2) <= Qabs (sV s)) /\
    (forall c, off = Some c ->
       exists z, In z (coerce_dropna kV kI (rows df)) /\ c = sI z /\ Qabs (sV z) < 1#2 /\
                 forall s, In s (coerce_dropna kV kI (rows df)) -> Qabs (sV z) <= Qabs (sV s)).
Proof. apply preprocess_curve_shape. Qed.

Lemma preprocess_curve_rows_witness :
  exists out, preprocess_curve 2 wframe = Ok out /\
  let '(kV, kI, cols2, pts) := out in
  column_index "V" cols2 = Ok kV /\ column_index "I" cols2 = Ok kI /\
  exists bV bI off,
    Permutation (map (fun p => (pV p, pI p, pJ p, prow p)) pts)
      (map (fun s => (sgn bV (sV s), sgn bI (shift off (sI s)),
                      if Qltb 0 2 then sgn bI (shift off (sI s)) / 2
                      else sgn bI (shift off (sI s)), srow s))
           (coerce_dropna kV kI (rows wframe))) /\
    (off = None -> forall s, In s (coerce_dropna kV kI (rows wframe)) -> (1#2) <= Qabs (sV s)) /\
    (forall c, off = Some c ->
       exists z, In z (coerce_dropna kV kI (rows wframe)) /\ c = sI z /\ Qabs (sV z) < 1#2 /\
                 forall s, In s (coerce_dropna kV kI (rows wframe)) -> Qabs (sV z) <= Qabs (sV s)).
Proof.
  eexists. split; [vm_compute; reflexivity |].
  apply (preprocess_curve_rows 2 wframe). vm_compute. reflexivity.
Defined.

Lemma preprocess_offset_zero_point_witness :
  exists out, preprocess_curve 2 wframe = Ok out /\
  let '(kV, kI, cols2, pts) := out in
  (exists s, In s (coerce_dropna kV kI (rows wframe)) /\ Qabs (sV s) < 1#2) /\
  exists p, In p pts /\ pI p == 0 /\ pJ p == 0 /\
            forall p', In p' pts -> Qabs (pV p) <= Qabs (pV p').
Proof.
  eexists. split; [vm_compute; reflexivity |].
  assert (Hs : exists s, In s (coerce_dropna 0 1 (rows wframe)) /\ Qabs (sV s) < 1#2)
    by (exists (mk_sample (1#4) 2 [CNum (1#4); CNum 2]); split; [simpl; auto | vm_compute; reflexivity]).
  split; [exact Hs |].
  apply (preprocess_offset_zero_point 2 wframe 0 1 ["V"; "I"]); [vm_compute; reflexivity | exact Hs].
Defined.

Lemma preprocess_table_shape_witness :
  exists out, preprocess 2 wframe = Ok out /\
  exists v i kV kI,
    identify (map strip (columns wframe)) = Ok (v, i) /\
    nth_error (map strip (columns wframe)) kV = Some v /\
    nth_error (map strip (columns wframe)) kI = Some i /\
    nth_error (columns out) kV = Some "V" /\ nth_error (columns out) kI = Some "I" /\
    In "J" (columns out) /\
    List.length (rows out) = List.length (coerce_dropna kV kI (rows wframe)) /\
    forall r, In r (rows out) ->
      exists x y, nth_error r kV = Some (CNum x) /\ nth_error r kI = Some (CNum y).
Proof.
  eexists. split; [vm_compute; reflexivity |].
  apply (preprocess_table_shape 2 wframe). vm_compute. reflexivity.
Defined.

(** ** Physics: the extracted parameters, R_diff and smoothing *)

Open Scope R_scope.

Lemma Reqb_false a b : a <> b -> Reqb a b = false.
Proof. intros H. unfold Reqb. destruct (Req_EM_T a b); [contradiction | reflexivity]. Qed.

Lemma fold_choose_In {A} (f : A -> A -> A) (Hf : forall b y, f b y = b \/ f b y = y) l b :
  In (fold_left f l b) (b :: l).
Proof.
  revert b; induction l as [| y l IH]; intros b; simpl; [auto |].
  destruct (IH (f b y)) as [E | E]; rewrite <- ?E.
  - destruct (Hf b y) as [-> | ->]; auto.
  - auto.
Qed.

Lemma argmin_n_In rows x : argmin_n rows = Some x -> In x rows.
Proof.
  destruct rows as [| r rows]; simpl; [discriminate |]. intros [= <-].
  apply fold_choose_In. intros b y. destruct (num_lt _ _); auto.
Qed.

Lemma linregress_r_range xs ys s i r :
  linregress xs ys = Ok (s, i, r) -> -1 <= r <= 1.
Proof.
  unfold linregress. destruct xs as [| x0 xs']; [discriminate |].
  destruct ys as [| y0 ys']; [discriminate |].
  destruct (_ && _); [discriminate |]. cbv zeta. intros [= _ _ <-].
  destruct (Reqb _ 0 || Reqb _ 0); [lra |].
  set (r0 := _ / sqrt _).
  unfold Rltb. destruct (Rlt_dec 1 r0); [lra |].
  destruct (Rlt_dec r0 (-1)); lra.
Qed.

Lemma rsh_step_keeps df res r :
  rsh_step df res = Ok r ->
  Rs r = Rs res /\ n r = n res /\ J0 r = J0 res /\ r_squared r = r_squared res.
Proof.
  unfold rsh_step. cbv zeta. destruct (Nat.ltb _ _); intro H; [| ok_inv H; auto].
  destruct (linregress _ _) as [[[s i] r0]|e]; cbn [bind] in H; [| discriminate].
  destruct (negb _); ok_inv H; auto.
Qed.

Lemma rsh_step_Rsh df res r :
  rsh_step df res = Ok r ->
  ((List.length (rsh_window df) <= 2)%nat -> r = res) /\
  ((2 < List.length (rsh_window df))%nat -> exists x, Rsh r = Fin x /\ x <> 0).
Proof.
  unfold rsh_step. cbv zeta. destruct (Nat.ltb 2 _) eqn:E; intro H.
  - apply Nat.ltb_lt in E. split; [lia | intros _].
    destruct (linregress _ _) as [[[s i] r0]|e]; cbn [bind] in H; [| discriminate].
    destruct (negb (Reqb s 0)) eqn:Es; ok_inv H; cbn [set_Rsh Rsh].
    + exists (1 / s). split; [reflexivity |].
      unfold Reqb in Es. destruct (Req_EM_T s 0); [discriminate |].
      unfold Rdiv. rewrite Rmult_1_l. apply Rinv_neq_0_compat. assumption.
    + exists 1e9. split; [reflexivity | lra].
  - apply Nat.ltb_ge in E. ok_inv H. split; [auto | lia].
Qed.

Lemma nj0_step_keeps df res r :
  nj0_step df res = Ok r -> Rsh r = Rsh res /\ Rs r = Rs res.
Proof.
  unfold nj0_step. cbv zeta. destruct (Nat.ltb _ _); intro H; [| ok_inv H; auto].
  destruct (gradient _) as [dV|e]; cbn [bind] in H; [| discriminate].
  destruct (gradient _) as [dl|e]; cbn [bind] in H; [| discriminate].
  destruct (argmin_n _) as [[pc nb]|]; [| ok_inv H; auto].
  destruct (Nat.ltb _ _); [| ok_inv H; auto].
  destruct (linregress _ _) as [[[s i] r0]|e]; cbn [bind] in H; [| discriminate].
  ok_inv H; auto.
Qed.

Lemma rs_step_keeps df res r :
  rs_step df res = Ok r ->
  Rsh r = Rsh res /\ n r = n res /\ J0 r = J0 res /\ r_squared r = r_squared res.
Proof.
  unfold rs_step. destruct (_ && _); intro H; [| ok_inv H; auto].
  destruct (argmax_V df) as [pm|]; [| discriminate]. cbv zeta in H.
  destruct (Rltb 0 _); [| ok_inv H; auto].
  destruct (num_lt _ _); ok_inv H; auto.
Qed.

Lemma k_B_pos : 0 < k_B.
Proof. unfold k_B. lra. Qed.
Lemma T_STC_pos : 0 < T_STC.
Proof. unfold T_STC. lra. Qed.
Lemma q_pos : 0 < q.
Proof. unfold q. lra. Qed.

Lemma in_band_fin nl : in_band nl = true -> exists x, nl = Fin x /\ 0.5 < x < 5.
Proof.
  unfold in_band. destruct nl as [x| | |]; cbn [num_lt]; try discriminate.
  intros Hb. apply andb_true_iff in Hb as [H1 H2].
  apply Rltb_true_iff in H1, H2. eauto.
Qed.

(** The n/J0 step leaves n, J0 and r_squared alone, or sets them from the
    fit or from the point of minimal in-band n_local. *)
Lemma nj0_step_ranges df res r :
  nj0_step df res = Ok r ->
  r = res \/
  ((exists j, J0 r = Fin j /\ 0 < j) /\
   ((exists r2, r_squared r = Fin r2 /\ 0 <= r2 <= 1 /\
                (n r = PInf \/ exists x, n r = Fin x /\ x <> 0)) \/
    (r_squared r = r_squared res /\ exists x, n r = Fin x /\ 0.5 < x < 5))).
Proof.
  unfold nj0_step. cbv zeta. destruct (Nat.ltb _ _); intro H; [| ok_inv H; auto].
  destruct (gradient _) as [dV|e]; cbn [bind] in H; [| discriminate].
  destruct (gradient _) as [dl|e]; cbn [bind] in H; [| discriminate].
  destruct (argmin_n _) as [[pc nb]|] eqn:Ha; [| ok_inv H; auto].
  right. apply argmin_n_In, filter_In in Ha as [Hin Hb]. cbn [snd] in Hb.
  apply in_combine_l, filter_In in Hin as [_ Hpc].
  apply andb_true_iff in Hpc as [_ HJ]. apply Rltb_true_iff in HJ.
  destruct (Nat.ltb _ _).
  - destruct (linregress _ _) as [[[s i] r0]|e] eqn:El; cbn [bind] in H; [| discriminate].
    apply linregress_r_range in El. ok_inv H. cbn [set_n_J0 J0 n r_squared].
    split; [exists (exp i); split; [reflexivity | apply exp_pos] |].
    left. exists (r0 * r0). split; [reflexivity | split; [nra |]].
    unfold ndiv. destruct (Reqb (s * k_B * T_STC) 0) eqn:Ez.
    + left. pose proof q_pos. unfold Rltb. destruct (Rlt_dec 0 q); [reflexivity | lra].
    + right. exists (q / (s * k_B * T_STC)). split; [reflexivity |].
      unfold Reqb in Ez. destruct (Req_EM_T _ 0) as [|Hnz]; [discriminate |].
      intro Hz. unfold Rdiv in Hz. apply Rmult_integral in Hz as [Hz | Hz].
      * pose proof q_pos. lra.
      * revert Hz. apply Rinv_neq_0_compat, Hnz.
  - apply in_band_fin in Hb as [x [-> Hx]]. ok_inv H. cbn [set_n_J0 J0 n r_squared].
    split; [| right; split; [reflexivity | exists x; split; [reflexivity | exact Hx]]].
    pose proof k_B_pos. pose proof T_STC_pos.
    assert (Hd : x * k_B * T_STC <> 0) by (apply Rgt_not_eq; unfold Rgt; apply Rmult_lt_0_compat; [apply Rmult_lt_0_compat |]; lra).
    cbn [nmul ndiv]. rewrite (Reqb_false _ _ Hd). cbn [nexp ndiv].
    rewrite (Reqb_false (exp _) 0) by (apply Rgt_not_eq, exp_pos).
    eexists. split; [reflexivity |]. apply Rdiv_lt_0_compat; [exact HJ | apply exp_pos].
Qed.

Lemma rs_step_ok df res : argmax_V df <> None -> exists r, rs_step df res = Ok r.
Proof.
  intros Ha. unfold rs_step. destruct (_ && _); [| eauto].
  destruct (argmax_V df) as [pm|]; [| contradiction]. cbv zeta.
  destruct (Rltb 0 _); [| eauto]. destruct (num_lt _ _); eauto.
Qed.

Lemma rsh_step_line df G p1 p2 :
  G <> 0 -> (2 < List.length (rsh_window df))%nat ->
  (forall p, In p (rsh_window df) -> J p = G * V p) ->
  In p1 (rsh_window df) -> In p2 (rsh_window df) -> V p1 <> V p2 ->
  rsh_step df init_params = Ok (set_Rsh (Fin (1 / G)) init_params).
Proof.
  intros HG Hlen HJ H1 H2 Hne.
  unfold rsh_step. cbv zeta.
  rewrite (proj2 (Nat.ltb_lt _ _) Hlen).
  replace (map J (rsh_window df)) with (map (fun x => G * x) (map V (rsh_window df)))
    by (rewrite map_map; apply map_ext_in; intros p Hp; symmetry; apply HJ, Hp).
  destruct (linregress_linear (map V (rsh_window df)) G (V p1) (V p2)
              (in_map V _ _ H1) (in_map V _ _ H2) Hne) as [i [r Hr]].
  rewrite Hr. cbn [bind]. unfold Reqb.
  destruct (Req_EM_T G 0); [contradiction | reflexivity].
Qed.

(** [dfW] runs through the single-point n/J0 branch and the Rs step. *)
Lemma dfW_run :
  exists res, extract_parameters dfW = Ok res /\
              isnan (n res) = false /\ exists j, J0 res = Fin j /\ 0 < j.
Proof.
  assert (H1 : rsh_step dfW init_params = Ok init_params) by (unfold dfW; reval).
  assert (H2 : exists r2, nj0_step dfW init_params = Ok r2 /\ isnan (n r2) = false).
  { eexists. split; [unfold dfW; reval | reflexivity]. }
  destruct H2 as [r2 [H2 Hn]].
  assert (HJ : exists j, J0 r2 = Fin j /\ 0 < j).
  { destruct (nj0_step_ranges _ _ _ H2) as [-> | [Hj _]]; [discriminate | exact Hj]. }
  destruct (rs_step_ok dfW r2) as [r3 H3]; [unfold dfW; simpl; discriminate |].
  exists r3. destruct (rs_step_keeps _ _ _ H3) as [_ [Hn3 [HJ3 _]]].
  rewrite Hn3, HJ3. split; [| split; assumption].
  unfold extract_parameters. rewrite H1. cbn [bind]. rewrite H2. exact H3.
Qed.

Lemma df_line_run : extract_parameters df_line = Ok (set_Rsh (Fin (1 / 1)) init_params).
Proof.
  assert (Hw : rsh_window df_line = df_line) by (unfold df_line, rsh_window; reval).
  assert (H1 : rsh_step df_line init_params = Ok (set_Rsh (Fin (1 / 1)) init_params)).
  { apply (rsh_step_line df_line 1 (mk_spt (-0.1) (-0.1) (-0.1)) (mk_spt 0 0 0)).
    - lra.
    - rewrite Hw. simpl. lia.
    - rewrite Hw. intros p Hp. simpl in Hp.
      destruct Hp as [<- | [<- | [<- | []]]]; simpl; lra.
    - rewrite Hw. simpl. auto.
    - rewrite Hw. simpl. auto.
    - simpl. lra. }
  unfold extract_parameters. rewrite H1. cbn [bind]. unfold df_line. reval.
Qed.

(** X4: in a successful [extract_parameters], Rsh stays NaN when at most two
    samples have V in [-0.2, 0.2], and is otherwise a finite non-zero
    number. *)
Theorem extract_Rsh_defined df res :
  extract_parameters df = Ok res ->
  ((List.length (rsh_window df) <= 2)%nat -> Rsh res = NaN) /\
  ((2 < List.length (rsh_window df))%nat -> exists x, Rsh res = Fin x /\ x <> 0).
Proof.
  intros H. unfold extract_parameters in H.
  destruct (rsh_step df init_params) as [r1|e] eqn:E1; cbn [bind] in H; [| discriminate].
  destruct (nj0_step df r1) as [r2|e] eqn:E2; cbn [bind] in H; [| discriminate].
  destruct (rs_step_keeps _ _ _ H) as [Hs _]. destruct (nj0_step_keeps _ _ _ E2) as [Hs' _].
  rewrite Hs, Hs'. destruct (rsh_step_Rsh _ _ _ E1) as [Ha Hb].
  split; [intros Hl; rewrite (Ha Hl); reflexivity | exact Hb].
Qed.

Lemma extract_Rsh_defined_witness :
  extract_parameters df_line = Ok (set_Rsh (Fin (1 / 1)) init_params) /\
  ((List.length (rsh_window df_line) <= 2)%nat -> Rsh (set_Rsh (Fin (1 / 1)) init_params) = NaN) /\
  ((2 < List.length (rsh_window df_line))%nat ->
     exists x, Rsh (set_Rsh (Fin (1 / 1)) init_params) = Fin x /\ x <> 0).
Proof. split; [exact df_line_run | exact (extract_Rsh_defined _ _ df_line_run)]. Defined.

(** X5: in a successful [extract_parameters], n, J0 and r_squared are all
    NaN, or J0 is a positive number and either r_squared lies in [0, 1] with
    n +inf or a non-zero number (fit case), or r_squared is NaN and n is a
    number in (0.5, 5) (single-point case). *)
Theorem extract_nJ0_ranges df res :
  extract_parameters df = Ok res ->
  (n res = NaN /\ J0 res = NaN /\ r_squared res = NaN) \/
  ((exists j, J0 res = Fin j /\ 0 < j) /\
   ((exists r2, r_squared res = Fin r2 /\ 0 <= r2 <= 1 /\
                (n res = PInf \/ exists x, n res = Fin x /\ x <> 0)) \/
    (r_squared res = NaN /\ exists x, n res = Fin x /\ 0.5 < x < 5))).
Proof.
  intros H. unfold extract_parameters in H.
  destruct (rsh_step df init_params) as [r1|e] eqn:E1; cbn [bind] in H; [| discriminate].
  destruct (nj0_step df r1) as [r2|e] eqn:E2; cbn [bind] in H; [| discriminate].
  destruct (rs_step_keeps _ _ _ H) as [_ [Hn [HJ Hr]]]. rewrite Hn, HJ, Hr.
  destruct (rsh_step_keeps _ _ _ E1) as [_ [Hn1 [HJ1 Hr1]]].
  destruct (nj0_step_ranges _ _ _ E2) as [-> | Hc].
  - left. rewrite Hn1, HJ1, Hr1. auto.
  - right. rewrite Hr1 in Hc. exact Hc.
Qed.

Lemma extract_nJ0_ranges_witness :
  exists res, extract_parameters dfW = Ok res /\ isnan (n res) = false /\
  ((n res = NaN /\ J0 res = NaN /\ r_squared res = NaN) \/
   ((exists j, J0 res = Fin j /\ 0 < j) /\
    ((exists r2, r_squared res = Fin r2 /\ 0 <= r2 <= 1 /\
                 (n res = PInf \/ exists x, n res = Fin x /\ x <> 0)) \/
     (r_squared res = NaN /\ exists x, n res = Fin x /\ 0.5 < x < 5)))).
Proof.
  destruct dfW_run as [res [H [Hn _]]]. exists res.
  split; [exact H | split; [exact Hn | exact (extract_nJ0_ranges dfW res H)]].
Defined.

Lemma extract_Rs_rule_witness :
  exists res, extract_parameters dfW = Ok res /\
    isnan (n res) = false /\ isnan (J0 res) = false /\
    argmax_V dfW = Some (mk_spt 0.7 (exp 14) (exp 14)) /\
    num_lt (Fin 0) (nadd (ndiv (Fin (exp 14)) (J0 res)) (Fin 1)) = true /\
    Rs res =
      pymax0 (ndiv (nsub (Fin 0.7)
                         (nmul (ndiv (nmul (nmul (n res) (Fin k_B)) (Fin T_STC)) (Fin q))
                               (nln (nadd (ndiv (Fin (exp 14)) (J0 res)) (Fin 1)))))
                   (Fin (exp 14))).
Proof.
  destruct dfW_run as [res [H [Hn [j [HJ Hj]]]]].
  assert (Ha : argmax_V dfW = Some (mk_spt 0.7 (exp 14) (exp 14))) by (unfold dfW; reval).
  assert (HJn : isnan (J0 res) = false) by (rewrite HJ; reflexivity).
  assert (Ht : num_lt (Fin 0) (nadd (ndiv (Fin (exp 14)) (J0 res)) (Fin 1)) = true).
  { rewrite HJ. cbn [ndiv]. rewrite Reqb_false by lra. cbn [nadd num_lt].
    apply Rltb_true_iff. pose proof (exp_pos 14).
    assert (0 < exp 14 / j) by (apply Rdiv_lt_0_compat; lra). lra. }
  exists res. do 5 (split; [assumption |]).
  destruct (extract_Rs_rule dfW res H) as [_ [Hpm _]].
  destruct (Hpm _ Ha Hn HJn) as [_ [_ H3]].
  apply H3; [apply exp_pos | exact Ht].
Defined.

(** ** Differential resistance *)

Lemma grad_tail_length prev cur rest : List.length (grad_tail prev cur rest) = S (List.length rest).
Proof.
  revert prev cur; induction rest as [| x rest IH]; intros prev cur; simpl; [reflexivity |].
  rewrite IH. reflexivity.
Qed.

Lemma gradient_length f :
  (List.length f < 2)%nat -> gradient f = Err GradientTooSmall.
Proof. destruct f as [| a [| b f]]; simpl; intros; [reflexivity | reflexivity | lia]. Qed.

Lemma gradient_ok f :
  (2 <= List.length f)%nat -> exists g, gradient f = Ok g /\ List.length g = List.length f.
Proof.
  destruct f as [| a [| b f]]; simpl; intros; try lia.
  eexists. split; [reflexivity |]. simpl. rewrite grad_tail_length. reflexivity.
Qed.

Lemma zip_with_length {A B C} (f : A -> B -> C) l1 l2 :
  List.length (zip_with f l1 l2) = Nat.min (List.length l1) (List.length l2).
Proof.
  revert l2; induction l1 as [| a l1 IH]; intros [| b l2]; simpl; auto.
Qed.

(** X6: on V and J_smooth of equal length, the Differential Resistance Stage
    raises from [np.gradient] below two samples, and otherwise yields one
    R_diff value per sample. *)
Theorem diff_res_length Vs js :
  List.length Vs = List.length js ->
  ((List.length Vs < 2)%nat ->
     calculate_differential_resistance Vs (Some js) = Err GradientTooSmall) /\
  ((2 <= List.length Vs)%nat ->
     exists out, calculate_differential_resistance Vs (Some js) = Ok (Some out) /\
                 List.length out = List.length Vs).
Proof.
  intros Hl. split.
  - intros Hs. unfold calculate_differential_resistance. rewrite (gradient_length Vs Hs).
    reflexivity.
  - intros Hs. unfold calculate_differential_resistance.
    destruct (gradient_ok Vs Hs) as [dV [-> HV]].
    destruct (gradient_ok js ltac:(lia)) as [dJ [-> HJ]]. cbn [bind].
    eexists. split; [reflexivity |]. rewrite !length_map, zip_with_length. lia.
Qed.

Lemma diff_res_length_witness :
  List.length [0; 1] = List.length [0; 2] /\
  ((lt (List.length [0; 1]) 2 ->
     calculate_differential_resistance [0; 1] (Some [0; 2]) = Err GradientTooSmall) /\
   (le 2 (List.length [0; 1]) ->
     exists out, calculate_differential_resistance [0; 1] (Some [0; 2]) = Ok (Some out) /\
                 List.length out = List.length [0; 1])).
Proof. split; [reflexivity | apply diff_res_length; reflexivity]. Defined.

(** ** Smoothing *)

(** X8: [smooth_data] keeps J as J_smooth for fewer than three samples;
    otherwise it calls the Savitzky-Golay filter with polynomial order 3 and
    the largest odd window w <= min(n, 11), w >= 3, and keeps J when the
    filter raises. *)
Theorem smooth_window_choice sg Js :
  ((List.length Js <= 2)%nat -> fst (smooth_data sg Js) = Js) /\
  ((3 <= List.length Js)%nat ->
     exists w, Z.odd w = true /\ (3 <= w)%Z /\ (w <= Z.min (Z.of_nat (List.length Js)) 11)%Z /\
               (Z.min (Z.of_nat (List.length Js)) 11 <= w + 1)%Z /\
               fst (smooth_data sg Js) = match sg Js w 3%Z with Ok s => s | Err _ => Js end).
Proof.
  unfold smooth_data, smooth_window. cbn [fst].
  set (N := Z.of_nat (List.length Js)).
  assert (HN : (0 <= N)%Z) by apply Zle_0_nat.
  rewrite Z.geb_leb.
  destruct (Z.leb_spec N 11) as [Hle | Hgt].
  - destruct (Z.even N) eqn:Ev.
    + split.
      * intros Hl. assert (N <= 2)%Z by lia. destruct (Z.ltb_spec (N - 1) 3); [reflexivity | lia].
      * intros Hl. assert (3 <= N)%Z by lia. exists (N - 1)%Z.
        assert (Hod : Z.odd (N - 1) = true) by (rewrite Z.sub_1_r, Z.odd_pred; exact Ev).
        (* an even length is at least 4 *)
        assert (N <> 3)%Z by (intros E; rewrite E in Ev; discriminate).
        split; [exact Hod | split; [lia | split; [lia | split; [lia |]]]].
        destruct (Z.ltb_spec (N - 1) 3); [lia | reflexivity].
    + split.
      * intros Hl. assert (N <= 2)%Z by lia. destruct (Z.ltb_spec N 3); [reflexivity | lia].
      * intros Hl. assert (3 <= N)%Z by lia. exists N.
        assert (Hod : Z.odd N = true) by (rewrite <- Z.negb_even, Ev; reflexivity).
        split; [exact Hod | split; [lia | split; [lia | split; [lia |]]]].
        destruct (Z.ltb_spec N 3); [lia | reflexivity].
  - split; [intros Hl; lia |]. intros _. exists 11%Z.
    split; [reflexivity | split; [lia | split; [lia | split; [lia | reflexivity]]]].
Qed.

(** X9: when the filter raises for a window no longer than the polynomial
    order (as SciPy's does), a curve of at most four samples is never
    smoothed: J_smooth is J and logJ is computed from J. *)
Theorem smooth_small_unsmoothed sg Js :
  (forall x w p, (w <= p)%Z -> exists e, sg x w p = Err e) ->
  (List.length Js <= 4)%nat ->
  smooth_data sg Js = (Js, map logJ_point Js).
Proof.
  intros Hsg Hl. unfold smooth_data, smooth_window.
  set (N := Z.of_nat (List.length Js)).
  assert (HN : (0 <= N <= 4)%Z) by (unfold N; lia).
  rewrite Z.geb_leb, (proj2 (Z.leb_le N 11)) by lia.
  match goal with |- ((if ?c then _ else ?m), _) = _ => destruct c eqn:Ec end;
    [reflexivity |].
  assert (Hw : ((if Z.even N then N - 1 else N) <= 3)%Z).
  { destruct (Z.even N) eqn:Ev; [lia |].
    assert (N <> 4)%Z by (intros E; rewrite E in Ev; discriminate). lia. }
  destruct (Hsg Js _ 3%Z Hw) as [e ->]. reflexivity.
Qed.

Lemma smooth_small_unsmoothed_witness :
  (forall x w p, (w <= p)%Z ->
     exists e, (fun (Js : list R) (w' p' : Z) => if Z.leb w' p' then Err IdenticalX else Ok Js) x w p = Err e) /\
  le (List.length [1; 2; 3]) 4 /\
  smooth_data (fun (Js : list R) (w' p' : Z) => if Z.leb w' p' then Err IdenticalX else Ok Js) [1; 2; 3] =
  ([1; 2; 3], map logJ_point [1; 2; 3]).
Proof.
  assert (H1 : forall x w p, (w <= p)%Z ->
     exists e, (fun (Js : list R) (w' p' : Z) => if Z.leb w' p' then Err IdenticalX else Ok Js) x w p = Err e).
  { intros x w p Hwp. exists IdenticalX. cbv beta. rewrite (proj2 (Z.leb_le w p) Hwp).
    reflexivity. }
  assert (H2 : le (List.length [1; 2; 3]) 4) by (simpl; lia).
  split; [exact H1 | split; [exact H2 |]]. apply smooth_small_unsmoothed; assumption.
Defined.

(** ** Loading and the per-file loop *)

Open Scope nat_scope. Open Scope string_scope. Open Scope list_scope.

Lemma get_nth s i : String.get i s = nth_error (list_ascii_of_string s) i.
Proof. revert i; induction s as [| a s IH]; intros [| i]; simpl; auto. Qed.

Lemma skipn_cons_nth {A} (L l : list A) k x :
  skipn k L = x :: l -> nth_error L k = Some x /\ skipn (S k) L = l.
Proof.
  revert k; induction L as [| y L IH]; intros [| k]; simpl; try discriminate.
  - intros [= -> ->]. auto.
  - apply IH.
Qed.

Lemma rfind_aux_inv c L l k acc :
  l = skipn k L ->
  (acc = (-1)%Z \/ (0 <= acc)%Z /\ nth_error L (Z.to_nat acc) = Some c) ->
  (forall j, (acc < Z.of_nat j)%Z -> j < k -> nth_error L j <> Some c) ->
  let r := rfind_aux c l k acc in
  (r = (-1)%Z \/ (0 <= r)%Z /\ nth_error L (Z.to_nat r) = Some c) /\
  (forall j, (r < Z.of_nat j)%Z -> nth_error L j <> Some c).
Proof.
  revert k acc; induction l as [| x l IH]; intros k acc Hl Hacc Hj; simpl.
  - split; [exact Hacc |]. intros j Hlt.
    destruct (Nat.lt_ge_cases j k) as [Hk | Hk]; [apply Hj; auto |].
    assert (Hlen : List.length L <= k).
    { symmetry in Hl. apply (f_equal (@List.length ascii)) in Hl. rewrite length_skipn in Hl.
      simpl in Hl. lia. }
    rewrite (proj2 (nth_error_None L j)) by lia. discriminate.
  - symmetry in Hl. apply skipn_cons_nth in Hl as [Hx Hl].
    apply IH; [symmetry; exact Hl | |].
    + destruct (Ascii.eqb x c) eqn:E; [| exact Hacc].
      apply Ascii.eqb_eq in E. subst. right. rewrite Nat2Z.id. split; [lia | exact Hx].
    + intros j Hlt Hjk. destruct (Ascii.eqb x c) eqn:E.
      * lia.
      * destruct (Nat.eq_dec j k) as [-> | Hne]; [| apply Hj; lia].
        rewrite Hx. intros [= Hxc]. apply Ascii.eqb_neq in E. contradiction.
Qed.

(** [rfind c s] is -1 or a position of [c], and no [c] comes after it. *)
Lemma rfind_spec c s :
  (rfind c s = (-1)%Z \/ (0 <= rfind c s)%Z /\ String.get (Z.to_nat (rfind c s)) s = Some c) /\
  (forall j, (rfind c s < Z.of_nat j)%Z -> String.get j s <> Some c).
Proof.
  unfold rfind.
  destruct (rfind_aux_inv c (list_ascii_of_string s) (list_ascii_of_string s) 0 (-1))
    as [H1 H2]; [reflexivity | left; reflexivity | intros j _ Hj; lia |].
  split; [rewrite get_nth; exact H1 | intros j Hj; rewrite get_nth; apply H2, Hj].
Qed.

Lemma get_lt_length i s c : String.get i s = Some c -> i < String.length s.
Proof.
  revert i; induction s as [| a s IH]; intros [| i]; simpl; try discriminate; [lia |].
  intros H. apply IH in H. lia.
Qed.

Lemma substring_full s : substring 0 (String.length s) s = s.
Proof. induction s as [| a s IH]; simpl; [reflexivity | rewrite IH; reflexivity]. Qed.

Lemma substring_split s d :
  d <= String.length s -> (substring 0 d s ++ substring d (String.length s - d) s)%string = s.
Proof.
  revert d; induction s as [| a s IH]; intros [| d] Hd; simpl in *; try lia.
  - reflexivity.
  - rewrite substring_full. reflexivity.
  - f_equal. apply IH. lia.
Qed.

Lemma append_empty_r s : (s ++ "")%string = s.
Proof. induction s as [| a s IH]; simpl; [reflexivity | rewrite IH; reflexivity]. Qed.

(** No character of [substring d m s] is a [c] when none of [s] after position
    [e] is, for [e < d]. *)
Lemma substring_no_char s d m e c :
  (e < Z.of_nat d)%Z -> (forall j, (e < Z.of_nat j)%Z -> String.get j s <> Some c) ->
  forall j, String.get j (substring d m s) <> Some c.
Proof.
  intros Hd Hs j. destruct (Nat.lt_ge_cases j m) as [Hj | Hj].
  - rewrite substring_correct1 by exact Hj. apply Hs. lia.
  - rewrite substring_correct2 by exact Hj. discriminate.
Qed.

(** X10: [os.path.splitext] splits a path into a root and an extension that
    concatenate back to the path; the extension is empty or starts with a
    dot, and it holds no '/'. *)
Theorem splitext_parts p :
  (fst (splitext p) ++ snd (splitext p))%string = p /\
  (snd (splitext p) = "" \/ exists rest, snd (splitext p) = String "." rest) /\
  (forall j, String.get j (snd (splitext p)) <> Some "/"%char).
Proof.
  unfold splitext. cbv zeta.
  destruct (rfind_spec "/" p) as [_ Hsep].
  destruct (rfind_spec "." p) as [Hdot _].
  destruct (Z.ltb (rfind "/" p) (rfind "." p) && _) eqn:E; cbn [fst snd].
  - apply andb_true_iff in E as [E _]. apply Z.ltb_lt in E.
    destruct Hdot as [Hd | [Hd0 Hget]].
    { destruct (rfind_spec "/" p) as [[Hs | [Hs _]] _]; lia. }
    set (d := Z.to_nat (rfind "." p)) in *.
    assert (Hlt : d < String.length p) by (apply (get_lt_length _ _ _ Hget)).
    split; [apply substring_split; lia | split].
    + right. destruct (substring d (String.length p - d) p) as [| a rest] eqn:Es.
      * exfalso. assert (H0 : String.get 0 (substring d (String.length p - d) p) = Some "."%char)
          by (rewrite substring_correct1 by lia; exact Hget).
        rewrite Es in H0. discriminate.
      * assert (H0 : String.get 0 (substring d (String.length p - d) p) = Some "."%char)
          by (rewrite substring_correct1 by lia; exact Hget).
        rewrite Es in H0. simpl in H0. injection H0 as ->. eauto.
    + apply (substring_no_char _ _ _ (rfind "/" p)); [unfold d; lia | exact Hsep].
  - split; [apply append_empty_r | split; [left; reflexivity |]].
    intros j. destruct j; discriminate.
Qed.

(** X11: [os.path.basename] returns a suffix of the path that holds no
    '/'. *)
Theorem basename_suffix p :
  (exists d, p = (d ++ basename p)%string) /\ (forall j, String.get j (basename p) <> Some "/"%char).
Proof.
  unfold basename. destruct (rfind_spec "/" p) as [Hr Hsep].
  set (i := Z.to_nat (rfind "/" p + 1)).
  assert (Hi : i <= String.length p).
  { unfold i. destruct Hr as [-> | [H0 Hg]]; [simpl; lia |].
    apply get_lt_length in Hg. lia. }
  split.
  - exists (substring 0 i p). symmetry. apply substring_split, Hi.
  - apply (substring_no_char _ _ _ (rfind "/" p)); [| exact Hsep].
    unfold i. destruct Hr as [-> | [H0 _]]; lia.
Qed.

(** X12: [load_data] returns a table only for the extensions .csv, .xlsx,
    .xls, .txt and .iv (case-insensitive); the table is what the matching
    reader returned, and for .txt/.iv it is the tab reader's table with at
    least two columns or the whitespace reader's table. *)
Theorem load_data_accepts rc rx rt rw p df :
  load_data rc rx rt rw p = Loaded df ->
  (lower (snd (splitext p)) = ".csv" /\ rc p = Ok df) \/
  ((lower (snd (splitext p)) = ".xlsx" \/ lower (snd (splitext p)) = ".xls") /\ rx p = Ok df) \/
  ((lower (snd (splitext p)) = ".txt" \/ lower (snd (splitext p)) = ".iv") /\
   ((rt p = Ok df /\ 2 <= List.length (columns df)) \/ rw p = Ok df)).
Proof.
  unfold load_data. set (ext := lower (snd (splitext p))).
  destruct (String.eqb ext ".csv") eqn:E1.
  { apply String.eqb_eq in E1. unfold wrap_io. destruct (rc p); [| discriminate].
    intros [= ->]. left. auto. }
  destruct (existsb (String.eqb ext) [".xlsx"; ".xls"]) eqn:E2.
  { apply existsb_exists in E2 as [x [Hx Hx']]. apply String.eqb_eq in Hx'.
    unfold wrap_io. destruct (rx p); [| discriminate].
    intros [= ->]. right. left. split; [| reflexivity].
    destruct Hx as [<- | [<- | []]]; auto. }
  destruct (existsb (String.eqb ext) [".txt"; ".iv"]) eqn:E3; [| discriminate].
  apply existsb_exists in E3 as [x [Hx Hx']]. apply String.eqb_eq in Hx'.
  intros H. right. right.
  split; [destruct Hx as [<- | [<- | []]]; auto |].
  unfold wrap_io in H.
  destruct (rt p) as [dft|e] eqn:Et.
  - destruct (Nat.ltb (List.length (columns dft)) 2) eqn:Ec.
    + right. destruct (rw p); [congruence | discriminate].
    + left. apply Nat.ltb_ge in Ec. injection H as ->. auto.
  - right. destruct (rw p); [congruence | discriminate].
Qed.

Lemma load_data_accepts_witness :
  load_data (fun _ => Ok (mk_frame ["V"; "I"] [])) (fun _ => Err IdenticalX)
            (fun _ => Err IdenticalX) (fun _ => Err IdenticalX) "data/a.CSV"
  = Loaded (mk_frame ["V"; "I"] []) /\
  ((lower (snd (splitext "data/a.CSV")) = ".csv" /\
    (fun _ : string => Ok (mk_frame ["V"; "I"] [])) "data/a.CSV" = Ok (mk_frame ["V"; "I"] [])) \/
   ((lower (snd (splitext "data/a.CSV")) = ".xlsx" \/ lower (snd (splitext "data/a.CSV")) = ".xls") /\
    (fun _ : string => Err IdenticalX) "data/a.CSV" = Ok (mk_frame ["V"; "I"] [])) \/
   ((lower (snd (splitext "data/a.CSV")) = ".txt" \/ lower (snd (splitext "data/a.CSV")) = ".iv") /\
    (((fun _ : string => Err IdenticalX) "data/a.CSV" = Ok (mk_frame ["V"; "I"] []) /\
      2 <= List.length (columns (mk_frame ["V"; "I"] []))) \/
     (fun _ : string => Err IdenticalX) "data/a.CSV" = Ok (mk_frame ["V"; "I"] [])))).
Proof.
  assert (H : load_data (fun _ => Ok (mk_frame ["V"; "I"] [])) (fun _ => Err IdenticalX)
            (fun _ => Err IdenticalX) (fun _ => Err IdenticalX) "data/a.CSV"
            = Loaded (mk_frame ["V"; "I"] [])) by (vm_compute; reflexivity).
  split; [exact H | exact (load_data_accepts _ _ _ _ _ _ H)].
Defined.

Lemma load_data_ext rc rx rt rw p df :
  load_data rc rx rt rw p = Loaded df ->
  In (lower (snd (splitext p))) [".csv"; ".xlsx"; ".xls"; ".txt"; ".iv"].
Proof.
  unfold load_data. set (ext := lower (snd (splitext p))).
  destruct (String.eqb ext ".csv") eqn:E1; [apply String.eqb_eq in E1; rewrite E1; simpl; auto |].
  destruct (existsb (String.eqb ext) [".xlsx"; ".xls"]) eqn:E2.
  { apply existsb_exists in E2 as [x [Hx Hx']]. apply String.eqb_eq in Hx'. subst ext.
    rewrite Hx'. intros _. destruct Hx as [<- | [<- | []]]; simpl; auto. }
  destruct (existsb (String.eqb ext) [".txt"; ".iv"]) eqn:E3; [| discriminate].
  apply existsb_exists in E3 as [x [Hx Hx']]. apply String.eqb_eq in Hx'. subst ext.
  rewrite Hx'. intros _. destruct Hx as [<- | [<- | []]]; simpl; auto 6.
Qed.

(** X13: every entry of [results_list] comes from a scanned file, carries its
    base name and the parameters of its processing, and that file has an
    accepted extension, loaded, and preprocessed to a Curve of at least two
    samples. *)
Theorem main_results_sources sg rc rx rt rw files :
  Forall (fun e => exists f, In f files /\ fst e = basename f /\
            process_file sg rc rx rt rw f = Some (snd e) /\
            In (lower (snd (splitext f))) [".csv"; ".xlsx"; ".xls"; ".txt"; ".iv"] /\
            exists df kV kI cols2 pts, load_data rc rx rt rw f = Loaded df /\
              preprocess_curve DEFAULT_AREA df = Ok (kV, kI, cols2, pts) /\
              2 <= List.length pts)
         (main_results sg rc rx rt rw files).
Proof.
  unfold main_results. apply Forall_forall. intros e He.
  apply in_flat_map in He as [f [Hf He]].
  destruct (process_file sg rc rx rt rw f) as [r|] eqn:Ep; [| destruct He].
  destruct He as [<- | []]. exists f. cbn [fst snd].
  split; [exact Hf | split; [reflexivity | split; [exact Ep |]]].
  unfold process_file in Ep.
  destruct (load_data rc rx rt rw f) as [df|] eqn:El; [| discriminate].
  split; [exact (load_data_ext _ _ _ _ _ _ El) |].
  destruct (preprocess_curve DEFAULT_AREA df) as [[[[kV kI] cols2] pts]|e] eqn:Epc;
    [| discriminate].
  exists df, kV, kI, cols2, pts. split; [reflexivity | split; [exact Epc |]].
  destruct pts as [| a [| b pts']]; [| | simpl; lia];
    unfold calculate_differential_resistance in Ep; cbn [map gradient bind] in Ep;
    discriminate.
Qed.
